(** * discord-rpc-bridge: a shallow embedding of [main.go]

    The daemon scans [/proc] for a running Steam game, resolves the game's
    folder name to a Discord application id and relays it to Discord over
    the local IPC socket.  This file embeds the pure parts of [main.go]
    (name normalisation, catalog lookup, path extraction, the process scan,
    the frame codec, the JSON bodies) as Rocq functions, and the effectful
    parts (socket dial, write, read, close, the ticker loop) as a small
    state-and-trace monad over an explicit world.

    Go values are modelled as follows:
    - [string]   : Rocq [string], a sequence of 8-bit characters;
    - [[]byte]   : [list byte];
    - [int], [int32], [uint32] : [Z], with the wrap-around of each
      conversion written out;
    - [map[string]string], [map[string]bool] : stdpp's [gmap string _];
    - [net.Conn] : a handle number, the world records which ones are open. *)

From Stdlib Require Import ZArith NArith Lia List Bool.
From Stdlib Require Import Ascii String DecimalString DecimalPos.
From Stdlib.Strings Require Import Byte.
From stdpp Require Import base option list strings gmap.

Local Open Scope string_scope.
Local Open Scope Z_scope.

(** ** Characters and strings *)

Module Str.

(** [lo <= c && c <= hi] on bytes. *)
Definition between (lo hi c : ascii) : bool :=
  ((N_of_ascii lo <=? N_of_ascii c) && (N_of_ascii c <=? N_of_ascii hi))%N.

(** [c < utf8.RuneSelf] *)
Definition is_ascii_char (c : ascii) : bool := (N_of_ascii c <? 128)%N.

Fixpoint all (p : ascii -> bool) (s : string) : bool :=
  match s with
  | EmptyString => true
  | String c r => p c && all p r
  end.

Fixpoint map (f : ascii -> ascii) (s : string) : string :=
  match s with
  | EmptyString => EmptyString
  | String c r => String (f c) (map f r)
  end.

Fixpoint filter (p : ascii -> bool) (s : string) : string :=
  match s with
  | EmptyString => EmptyString
  | String c r => if p c then String c (filter p r) else filter p r
  end.

(** [c += 'a' - 'A'] for an upper-case ASCII letter. *)
Definition lower_char (c : ascii) : ascii :=
  if between "A" "Z" c then ascii_of_N (N_of_ascii c + 32) else c.

(** [strings.HasPrefix] *)
Fixpoint has_prefix (p s : string) : bool :=
  match p, s with
  | EmptyString, _ => true
  | String a p', String b s' => if Ascii.eqb a b then has_prefix p' s' else false
  | String _ _, EmptyString => false
  end.

(** [s[n:]] for [n <= len(s)]. *)
Fixpoint drop (n : nat) (s : string) : string :=
  match n, s with
  | O, _ => s
  | S n', String _ r => drop n' r
  | S _, EmptyString => EmptyString
  end.

(** The suffix of [s] that follows the first occurrence of [key]:
    [s[idx+len(key):]] with [idx := strings.Index(s, key)], and [None]
    when [idx == -1]. *)
Fixpoint after_first (key s : string) : option string :=
  if has_prefix key s then Some (drop (String.length key) s)
  else match s with
       | EmptyString => None
       | String _ r => after_first key r
       end.

(** The part of [s] before the first [sep]: element 0 of
    [strings.SplitN(s, sep, 2)] for a one-character separator. *)
Fixpoint before_sep (sep : ascii) (s : string) : string :=
  match s with
  | EmptyString => EmptyString
  | String c r => if Ascii.eqb c sep then EmptyString else String c (before_sep sep r)
  end.

(** [bytes.Split(data, []byte{sep})] on a character sequence. *)
Fixpoint split (sep : ascii) (s : string) : list string :=
  match s with
  | EmptyString => [EmptyString]
  | String c r =>
      if Ascii.eqb c sep then EmptyString :: split sep r
      else match split sep r with
           | [] => [String c EmptyString]
           | h :: t => String c h :: t
           end
  end.

(** The double-quote character. *)
Definition dq : string := String (ascii_of_N 34) EmptyString.

End Str.

(** [fmt.Sprintf("%d", n)] *)
Definition itoa (n : Z) : string := NilZero.string_of_int (Z.to_int n).

(** ** Name normaliser and game catalog *)

Record Executable := { exe_name : string; exe_os : string }.

Record DetectableApp := {
  ID : string;
  Name : string;
  Executables : list Executable
}.

Section Bridge.

(** [strings.ToLower] leaves its ASCII fast path for an input with a byte
    above 127 and then maps [unicode.ToLower] over the runes of the
    string.  That table belongs to the Go library; it is a parameter
    here. *)
Variable unicode_ToLower : string -> string.

(** [strings.ToLower] *)
Definition ToLower (s : string) : string :=
  if Str.all Str.is_ascii_char s then Str.map Str.lower_char s
  else unicode_ToLower s.

(** The class [[a-z0-9]]. *)
Definition az09 (c : ascii) : bool :=
  Str.between "a" "z" c || Str.between "0" "9" c.

(** [regexp.MustCompile(`[^a-z0-9]`).ReplaceAllString(s, "")]: every rune
    outside the class is dropped.  A rune of more than one byte, and an
    invalid byte, has only bytes above 127, so dropping runes is dropping
    bytes. *)
Definition strip_non_az09 (s : string) : string := Str.filter az09 s.

Definition normalizeGameName (input : string) : string :=
  strip_non_az09 (ToLower input).

(** [populateMap]: the loop over [apps] writing into [nameToID]. *)
Definition populateMap (apps : list DetectableApp) (nameToID : gmap string string)
  : gmap string string :=
  fold_left (fun m app => <[normalizeGameName (Name app) := ID app]> m) apps nameToID.

Definition sentinelClientID : string := "000000000000000000".

Definition resolveClientID (nameToID : gmap string string) (name : string) : string :=
  let norm := normalizeGameName name in
  match nameToID !! norm with
  | Some id => id
  | None => sentinelClientID
  end.

End Bridge.

(** ** Process scanner *)

(** [extractSteamGameName]: the path component that follows the first
    occurrence of [steamapps/common]. *)
Definition extractSteamGameName (fullPath : string) : string :=
  match Str.after_first "steamapps/common" fullPath with
  | None => ""
  | Some name =>
      (* strings.TrimPrefix(name, "/") *)
      let name := match name with
                  | String c r => if Ascii.eqb c "/" then r else name
                  | EmptyString => name
                  end in
      (* parts[0] of strings.SplitN(name, "/", 2); parts is never empty *)
      Str.before_sep "/" name
  end.

(** [ignoredGames[name]]: a missing key reads as [false]. *)
Definition is_ignored (ignoredGames : gmap string bool) (name : string) : bool :=
  default false (ignoredGames !! name).

Definition nonempty (s : string) : bool := negb (String.eqb s "").

(** The loop of [scanCmdline] over the arguments. *)
Fixpoint scanArgs (ignoredGames : gmap string bool) (args : list string) : string :=
  match args with
  | [] => ""
  | arg :: rest =>
      if (String.length arg =? 0)%nat then scanArgs ignoredGames rest
      else
        let name := extractSteamGameName arg in
        if nonempty name && negb (is_ignored ignoredGames name) then name
        else scanArgs ignoredGames rest
  end.

(** [scanCmdline]; [cmdline] is what [os.ReadFile("/proc/<pid>/cmdline")]
    gives, [None] for an error. *)
Definition scanCmdline (ignoredGames : gmap string bool) (cmdline : option string) : string :=
  match cmdline with
  | None => ""
  | Some data => scanArgs ignoredGames (Str.split zero data)
  end.

(** One entry of [os.ReadDir("/proc")] with what the scan reads below it:
    the target of [/proc/<name>/exe] and the contents of
    [/proc/<name>/cmdline], each [None] when the call fails. *)
Record ProcEntry := {
  entry_name : string;
  entry_is_dir : bool;
  proc_exe : option string;
  proc_cmdline : option string
}.

Definition is_digit (c : ascii) : bool := Str.between "0" "9" c.

Fixpoint leading_digits (s : string) (acc : Z) : Z :=
  match s with
  | String c r =>
      if is_digit c then leading_digits r (10 * acc + (Z.of_N (N_of_ascii c) - 48))
      else acc
  | EmptyString => acc
  end.

(** [var pid int; fmt.Sscanf(pidStr, "%d", &pid)] for a [pidStr] that
    starts with a digit, as at both call sites: the run of digits is
    parsed, and a value that does not fit 64 bits leaves [pid] at zero. *)
Definition Sscanf_d (pidStr : string) : Z :=
  let v := leading_digits pidStr 0 in
  if v <? 2 ^ 63 then v else 0.

(** The loop of [scanProcesses].  [None] is the run-time panic of
    [pidStr[0]] on an empty name. *)
Fixpoint scanEntries (ignoredGames : gmap string bool) (entries : list ProcEntry)
  : option (string * Z) :=
  match entries with
  | [] => Some ("", 0)
  | entry :: rest =>
      if negb (entry_is_dir entry) then scanEntries ignoredGames rest
      else
        let pidStr := entry_name entry in
        match pidStr with
        | EmptyString => None
        | String c0 _ =>
            if negb (is_digit c0) then scanEntries ignoredGames rest
            else
              let fromExe :=
                match proc_exe entry with
                | Some exePath =>
                    let name := extractSteamGameName exePath in
                    if nonempty name && negb (is_ignored ignoredGames name)
                    then Some name else None
                | None => None
                end in
              match fromExe with
              | Some name => Some (name, Sscanf_d pidStr)
              | None =>
                  let name := scanCmdline ignoredGames (proc_cmdline entry) in
                  if nonempty name && negb (is_ignored ignoredGames name)
                  then Some (name, Sscanf_d pidStr)
                  else scanEntries ignoredGames rest
              end
        end
  end.

(** [scanProcesses]; [proc] is the result of [os.ReadDir("/proc")]. *)
Definition scanProcesses (ignoredGames : gmap string bool)
    (proc : option (list ProcEntry)) : option (string * Z) :=
  match proc with
  | None => Some ("", 0)
  | Some entries => scanEntries ignoredGames entries
  end.

(** The ignore set [main.go] starts with, before [loadConfig] adds to it. *)
Definition defaultIgnoredGames : gmap string bool :=
  <["SteamLinuxRuntime_soldier" := true]>
    (<["SteamLinuxRuntime_sniper" := true]>
       (<["SteamLinuxRuntime" := true]> ∅)).

(** The merge loop of [loadConfig]. *)
Definition mergeIgnored (names : list string) (ignoredGames : gmap string bool)
  : gmap string bool :=
  fold_left (fun m name => <[name := true]> m) names ignoredGames.

(** ** IPC codec *)

(** [int32(x)] for a Go [int]: keep the low 32 bits, read them signed. *)
Definition to_int32 (x : Z) : Z := (x + 2 ^ 31) mod 2 ^ 32 - 2 ^ 31.

Definition byte_of_Z (z : Z) : byte :=
  match Byte.of_N (Z.to_N z) with
  | Some b => b
  | None => x00
  end.

Definition Z_of_byte (b : byte) : Z := Z.of_N (Byte.to_N b).

(** [binary.Write(buf, binary.LittleEndian, v)] for a 32-bit [v]. *)
Definition LittleEndian_PutUint32 (v : Z) : list byte :=
  [ byte_of_Z (Z.land v 255);
    byte_of_Z (Z.land (Z.shiftr v 8) 255);
    byte_of_Z (Z.land (Z.shiftr v 16) 255);
    byte_of_Z (Z.land (Z.shiftr v 24) 255) ].

(** [binary.LittleEndian.Uint32(b)]; the slice has four bytes at both
    uses, a shorter one panics in Go and reads as zero bytes here. *)
Definition LittleEndian_Uint32 (b : list byte) : Z :=
  let at_ i := Z_of_byte (nth i b x00) in
  Z.lor (Z.lor (Z.lor (at_ 0%nat) (Z.shiftl (at_ 1%nat) 8))
               (Z.shiftl (at_ 2%nat) 16))
        (Z.shiftl (at_ 3%nat) 24).

(** The buffer [sendIPCPacket] builds and hands to [conn.Write]. *)
Definition encodeFrame (opcode : Z) (payload : list byte) : list byte :=
  (LittleEndian_PutUint32 (to_int32 opcode)
     ++ LittleEndian_PutUint32 (to_int32 (Z.of_nat (length payload)))
     ++ payload)%list.

(** [conn.Read(buf)] with [len(buf) = n]; [avail] is what has arrived on
    the connection and is not yet read when the call is made.  An empty
    buffer reads nothing; a call that finds nothing is the peer's close,
    an error (a call on a silent open connection waits, and has [avail]
    as it is when the wait ends); otherwise the call hands over what has
    arrived, up to [n] bytes, and does not wait for more: the buffer keeps
    its zeros behind them.  The result is the buffer and what stays
    unread. *)
Definition conn_Read (n : nat) (avail : list byte) : option (list byte * list byte) :=
  match n, avail with
  | O, _ => Some ([], avail)
  | _, [] => None
  | _, _ => Some ((firstn n avail ++ repeat x00 (n - length (firstn n avail)))%list,
                  skipn n avail)
  end.

Inductive ReadOutcome :=
| HeaderError                       (* "Failed to read header" *)
| PayloadError                      (* "Failed to read payload" *)
| Response (payload : list byte).   (* "Discord response: ..." *)

(** [readIpcResponse]: what it logs, and the bytes it leaves unread, when
    [avail] has arrived before the header is read and nothing arrives
    between its two reads. *)
Definition readIpcResponse (avail : list byte) : ReadOutcome * list byte :=
  match conn_Read 8 avail with
  | None => (HeaderError, avail)
  | Some (header, rest) =>
      let dataLen := LittleEndian_Uint32 (skipn 4 header) in
      match conn_Read (Z.to_nat dataLen) rest with
      | None => (PayloadError, rest)
      | Some (payload, rest') => (Response payload, rest')
      end
  end.

(** [readIpcResponse] with the arrival of the bytes spelled out: [first]
    has arrived when the header is read, [later] arrives after that and
    before the payload is read.  Each of the two buffers is filled by one
    [conn.Read] whose count is dropped, so what arrives after the second
    read is not read at all. *)
Definition readIpcResponse_on (first later : list byte) : ReadOutcome * list byte :=
  match conn_Read 8 first with
  | None => (HeaderError, (first ++ later)%list)
  | Some (header, rest) =>
      let dataLen := LittleEndian_Uint32 (skipn 4 header) in
      match conn_Read (Z.to_nat dataLen) (rest ++ later)%list with
      | None => (PayloadError, (rest ++ later)%list)
      | Some (payload, rest') => (Response payload, rest')
      end
  end.

(** ** JSON bodies

    [json.Marshal] of the structs of [main.go].  Field names come from the
    struct tags; strings are quoted as [encoding/json] quotes them in
    current Go releases, with HTML escaping on. *)

Module Json.

Definition backslash : string := String (ascii_of_N 92) EmptyString.

Definition hex (n : N) : string :=
  String (nth (N.to_nat n) (list_ascii_of_string "0123456789abcdef") "0"%char)
         EmptyString.

(** The escape of one byte below [utf8.RuneSelf]. *)
Definition escape_ascii (c : ascii) : string :=
  let n := N_of_ascii c in
  if ((n =? 34) || (n =? 92))%N then backslash ++ String c EmptyString
  else if (n =? 8)%N then backslash ++ "b"
  else if (n =? 12)%N then backslash ++ "f"
  else if (n =? 10)%N then backslash ++ "n"
  else if (n =? 13)%N then backslash ++ "r"
  else if (n =? 9)%N then backslash ++ "t"
  else if ((n <? 32) || (n =? 60) || (n =? 62) || (n =? 38))%N
       then backslash ++ "u00" ++ hex (n / 16) ++ hex (n mod 16)
  else String c EmptyString.

Definition in_range (lo hi : N) (c : ascii) : bool :=
  ((lo <=? N_of_ascii c) && (N_of_ascii c <=? hi))%N.

(** The width of the UTF-8 encoding at the head of [s], and [0] when
    the head is not the start of a valid encoding
    ([utf8.DecodeRuneInString] returning [RuneError, 1]). *)
Definition utf8_width (s : string) : nat :=
  match s with
  | String b0 (String b1 r) =>
      let n0 := N_of_ascii b0 in
      if ((194 <=? n0) && (n0 <=? 223))%N then
        if in_range 128 191 b1 then 2 else 0
      else if ((224 <=? n0) && (n0 <=? 239))%N then
        let lo := if (n0 =? 224)%N then 160%N else 128%N in
        let hi := if (n0 =? 237)%N then 159%N else 191%N in
        match r with
        | String b2 _ =>
            if in_range lo hi b1 && in_range 128 191 b2 then 3 else 0
        | EmptyString => 0
        end
      else if ((240 <=? n0) && (n0 <=? 244))%N then
        let lo := if (n0 =? 240)%N then 144%N else 128%N in
        let hi := if (n0 =? 244)%N then 143%N else 191%N in
        match r with
        | String b2 (String b3 _) =>
            if in_range lo hi b1 && in_range 128 191 b2 && in_range 128 191 b3
            then 4 else 0
        | _ => 0
        end
      else 0
  | _ => 0
  end%nat.

(** U+2028 and U+2029 are [E2 80 A8] and [E2 80 A9]. *)
Definition line_separator (s : string) : option string :=
  match s with
  | String b0 (String b1 (String b2 _)) =>
      if ((N_of_ascii b0 =? 226) && (N_of_ascii b1 =? 128))%N then
        if (N_of_ascii b2 =? 168)%N then Some (backslash ++ "u2028")
        else if (N_of_ascii b2 =? 169)%N then Some (backslash ++ "u2029")
        else None
      else None
  | _ => None
  end.

(** The loop of the string encoder.  [skip] counts the bytes of the rune
    at hand that are still to pass, [copy] says whether they go to the
    output. *)
Fixpoint quote_from (skip : nat) (copy : bool) (s : string) : string :=
  match s with
  | EmptyString => EmptyString
  | String c r =>
      match skip with
      | S k => if copy then String c (quote_from k copy r) else quote_from k copy r
      | O =>
          if Str.is_ascii_char c then escape_ascii c ++ quote_from 0 true r
          else
            match utf8_width s with
            | O => backslash ++ "ufffd" ++ quote_from 0 true r
            | S k =>
                match line_separator s with
                | Some esc => esc ++ quote_from k false r
                | None => String c (quote_from k true r)
                end
            end
      end
  end.

Definition quote (s : string) : string :=
  Str.dq ++ quote_from 0 true s ++ Str.dq.

(** ["name":] *)
Definition key (name : string) : string := Str.dq ++ name ++ Str.dq ++ ":".

End Json.

Record IpcHandshake := { V : Z; ClientID : string }.

Record ActivityAssets := { LargeImage : string; LargeText : string }.

Record Activity := { Details : string; State : string; Assets : ActivityAssets }.

Record ActivityArgs := { Pid : Z; Args_Activity : Activity }.

Record DiscordRpcPayload := { Cmd : string; Nonce : string; Args : ActivityArgs }.

Definition marshal_IpcHandshake (h : IpcHandshake) : string :=
  "{" ++ Json.key "v" ++ itoa (V h)
      ++ "," ++ Json.key "client_id" ++ Json.quote (ClientID h) ++ "}".

Definition marshal_ActivityAssets (a : ActivityAssets) : string :=
  "{" ++ Json.key "large_image" ++ Json.quote (LargeImage a)
      ++ "," ++ Json.key "large_text" ++ Json.quote (LargeText a) ++ "}".

Definition marshal_Activity (a : Activity) : string :=
  "{" ++ Json.key "details" ++ Json.quote (Details a)
      ++ "," ++ Json.key "state" ++ Json.quote (State a)
      ++ "," ++ Json.key "assets" ++ marshal_ActivityAssets (Assets a) ++ "}".

Definition marshal_ActivityArgs (a : ActivityArgs) : string :=
  "{" ++ Json.key "pid" ++ itoa (Pid a)
      ++ "," ++ Json.key "activity" ++ marshal_Activity (Args_Activity a) ++ "}".

Definition marshal_DiscordRpcPayload (p : DiscordRpcPayload) : string :=
  "{" ++ Json.key "cmd" ++ Json.quote (Cmd p)
      ++ "," ++ Json.key "nonce" ++ Json.quote (Nonce p)
      ++ "," ++ Json.key "args" ++ marshal_ActivityArgs (Args p) ++ "}".

(** The zero value [Activity{}]. *)
Definition emptyActivity : Activity :=
  {| Details := ""; State := "";
     Assets := {| LargeImage := ""; LargeText := "" |} |}.

(** The payload [setActivity] marshals; [now] is [time.Now().UnixNano()]. *)
Definition activityPayload (appName : string) (pid : Z) (osRelease : string) (now : Z)
  : DiscordRpcPayload :=
  let activity :=
    if nonempty appName then
      {| Details := "Playing " ++ appName;
         State := "On " ++ osRelease;
         Assets := {| LargeImage := "default"; LargeText := appName |} |}
    else emptyActivity in
  {| Cmd := "SET_ACTIVITY";
     Nonce := itoa now;
     Args := {| Pid := pid; Args_Activity := activity |} |}.

(** ** The world: connections and what is done with them *)

(** A [net.Conn] is a handle number. *)
Definition Conn := nat.

Inductive Event :=
| EvDial (path : string) (result : option Conn)   (* net.Dial("unix", path) *)
| EvWrite (conn : Conn) (data : list byte) (ok : bool)   (* conn.Write(data) *)
| EvResponse (conn : Conn) (outcome : ReadOutcome)       (* readIpcResponse(conn) *)
| EvClose (conn : Conn).                                 (* conn.Close() *)

(** The handles that are open, and the next handle [net.Dial] gives out. *)
Record World := { open_conns : list Conn; next_conn : Conn }.

(** A computation reads and changes the world and emits events. *)
Definition IO (A : Type) : Type := World -> A * World * list Event.

Definition ret {A} (a : A) : IO A := fun w => (a, w, []).

Definition bind {A B} (m : IO A) (k : A -> IO B) : IO B :=
  fun w =>
    let '(a, w1, ev1) := m w in
    let '(b, w2, ev2) := k a w1 in
    (b, w2, (ev1 ++ ev2)%list).

Notation "x <- m ;; k" := (bind m (fun x => k))
  (at level 100, m at next level, right associativity).
Notation "m ;;; k" := (bind m (fun _ => k))
  (at level 100, right associativity).

(** [net.Dial("unix", path)]; [ok] is whether the peer accepts. *)
Definition net_Dial (ok : bool) (path : string) : IO (option Conn) :=
  fun w =>
    if ok then
      let c := next_conn w in
      (Some c, {| open_conns := c :: open_conns w; next_conn := S c |},
       [EvDial path (Some c)])
    else (None, w, [EvDial path None]).

(** [conn.Write(data)]; the result is [err == nil]. *)
Definition conn_Write (ok : bool) (conn : Conn) (data : list byte) : IO bool :=
  fun w => (ok, w, [EvWrite conn data ok]).

Definition conn_Close (conn : Conn) : IO unit :=
  fun w =>
    (tt, {| open_conns := List.filter (fun c => negb (Nat.eqb c conn)) (open_conns w);
            next_conn := next_conn w |},
     [EvClose conn]).

(** [readIpcResponse(conn)] on a connection on which [avail] has arrived. *)
Definition conn_readIpcResponse (conn : Conn) (avail : list byte) : IO unit :=
  fun w => (tt, w, [EvResponse conn (fst (readIpcResponse avail))]).

(** [sendIPCPacket]; the result is [err == nil]. *)
Definition sendIPCPacket (write_ok : bool) (conn : Conn) (opcode : Z)
    (payload : list byte) : IO bool :=
  conn_Write write_ok conn (encodeFrame opcode payload).

(** What the outside answers during one tick of the loop. *)
Record TickEnv := {
  scan : string * Z;            (* gameName, pid := scanProcesses() *)
  stat_ok : string -> bool;     (* os.Stat(path) succeeds *)
  dial_ok : bool;               (* net.Dial succeeds *)
  handshake_write_ok : bool;    (* the write of the handshake frame succeeds *)
  peer_reply : list byte;       (* what has arrived when the reply is read *)
  clock : Z;                    (* time.Now().UnixNano() *)
  activity_write_ok : bool      (* the write of the activity frame succeeds *)
}.

(** [connectIPC]: [Some conn] is [(conn, nil)], [None] is [(nil, err)]. *)
Definition connectIPC (env : TickEnv) (path clientID : string) : IO (option Conn) :=
  r <- net_Dial (dial_ok env) path ;;
  match r with
  | None => ret None
  | Some conn =>
      let handshake := {| V := 1; ClientID := clientID |} in
      let payload := list_byte_of_string (marshal_IpcHandshake handshake) in
      ok <- sendIPCPacket (handshake_write_ok env) conn 0 payload ;;
      if ok then
        conn_readIpcResponse conn (peer_reply env) ;;;
        ret (Some conn)
      else
        conn_Close conn ;;;
        ret None
  end.

(** [setActivity]; the result is [err == nil]. *)
Definition setActivity (env : TickEnv) (conn : Conn) (appName : string) (pid : Z)
    (osRelease : string) : IO bool :=
  let payload := activityPayload appName pid osRelease (clock env) in
  let data := list_byte_of_string (marshal_DiscordRpcPayload payload) in
  sendIPCPacket (activity_write_ok env) conn 1 data.

(** [findDiscordSocket]: the path and whether it was found
    ([err == nil]); the path is empty when it was not. *)
Definition findDiscordSocket (uid : Z) (stat_ok : string -> bool) : string * bool :=
  let candidates :=
    [ "/run/user/" ++ itoa uid ++ "/discord-ipc-0";
      "/run/user/" ++ itoa uid ++ "/app/com.discordapp.Discord/discord-ipc-0";
      "/run/user/" ++ itoa uid ++ "/snap.discord/discord-ipc-0" ] in
  match List.find stat_ok candidates with
  | Some path => (path, true)
  | None => ("", false)
  end.

(** ** The bridge loop *)

(** The three variables [main] keeps across ticks. *)
Record Session := {
  socketPath : string;
  currentClientID : string;
  ipcConn : option Conn
}.

Section Loop.

Variable unicode_ToLower : string -> string.
(** What [main] fixes before the loop starts. *)
Variable nameToID : gmap string string.
Variable osRelease : string.
Variable uid : Z.

(** The session [main] enters the loop with. *)
Definition initialSession (stat_ok : string -> bool) : Session :=
  {| socketPath := fst (findDiscordSocket uid stat_ok);
     currentClientID := "";
     ipcConn := None |}.

(** "if connected, but ID wrong, disconnect" *)
Definition disconnectIfSwitched (targetClientID : string) (s : Session) : IO Session :=
  match ipcConn s with
  | Some conn =>
      if negb (String.eqb (currentClientID s) targetClientID) then
        conn_Close conn ;;;
        ret {| socketPath := socketPath s;
               currentClientID := currentClientID s;
               ipcConn := None |}
      else ret s
  | None => ret s
  end.

(** "connect if disconnected"; the flag is the [continue] of the failed
    connect. *)
Definition connectIfDisconnected (env : TickEnv) (targetClientID : string)
    (s : Session) : IO (Session * bool) :=
  match ipcConn s with
  | Some _ => ret (s, false)
  | None =>
      let path :=
        if String.eqb (socketPath s) "" then fst (findDiscordSocket uid (stat_ok env))
        else socketPath s in
      let s := {| socketPath := path;
                  currentClientID := currentClientID s;
                  ipcConn := None |} in
      if nonempty path then
        r <- connectIPC env path targetClientID ;;
        match r with
        | Some conn =>
            ret ({| socketPath := path;
                    currentClientID := targetClientID;
                    ipcConn := Some conn |}, false)
        | None => ret (s, true)
        end
      else ret (s, false)
  end.

(** One iteration of [for range ticker.C]. *)
Definition tick (env : TickEnv) (s : Session) : IO Session :=
  let '(gameName, pid) := scan env in
  if negb (nonempty gameName) then
    match ipcConn s with
    | Some conn =>
        conn_Close conn ;;;
        ret {| socketPath := socketPath s; currentClientID := ""; ipcConn := None |}
    | None => ret s
    end
  else
    let targetClientID := resolveClientID unicode_ToLower nameToID gameName in
    s <- disconnectIfSwitched targetClientID s ;;
    r <- connectIfDisconnected env targetClientID s ;;
    let '(s, continue) := r in
    if continue then ret s
    else
      match ipcConn s with
      | Some conn =>
          setActivity env conn gameName pid osRelease ;;;
          ret s
      | None => ret s
      end.

(** The loop over a finite run of ticks: the events of each tick, and
    the session and world after the last one. *)
Fixpoint run (envs : list TickEnv) (s : Session) (w : World)
  : list (list Event) * Session * World :=
  match envs with
  | [] => ([], s, w)
  | env :: rest =>
      let '(s1, w1, ev) := tick env s w in
      let '(evs, s2, w2) := run rest s1 w1 in
      (ev :: evs, s2, w2)
  end.

End Loop.

(** A world with no connection open. *)
Definition emptyWorld : World := {| open_conns := []; next_conn := 0%nat |}.

(** The handles a session holds. *)
Definition live (s : Session) : list Conn :=
  match ipcConn s with
  | Some c => [c]
  | None => []
  end.

(** ** What the events of a tick show *)

Definition is_dial (e : Event) : bool :=
  match e with EvDial _ _ => true | _ => false end.

Definition is_close (e : Event) : bool :=
  match e with EvClose _ => true | _ => false end.

(** A written frame with the given opcode in its header. *)
Definition is_frame (opcode : Z) (e : Event) : bool :=
  match e with
  | EvWrite _ data _ => to_int32 (LittleEndian_Uint32 (firstn 4 data)) =? opcode
  | _ => false
  end.

Definition count (p : Event -> bool) (evs : list Event) : nat :=
  length (List.filter p evs).

(** ** Definitions the properties are stated with *)

(** A name passes the test both scan paths apply before they return. *)
Definition accepted (ignoredGames : gmap string bool) (name : string) : bool :=
  nonempty name && negb (is_ignored ignoredGames name).

(** The test [scanProcesses] applies to an entry's name. *)
Definition starts_with_digit (s : string) : bool :=
  match s with
  | String c _ => is_digit c
  | EmptyString => false
  end.

(** A name of decimal digits only. *)
Definition is_numeric (s : string) : bool := nonempty s && Str.all is_digit s.

(** An entry the loop passes over: not a directory, or a non-empty name
    whose first byte is no digit. *)
Definition passed_over (entry : ProcEntry) : bool :=
  negb (entry_is_dir entry)
  || (nonempty (entry_name entry) && negb (starts_with_digit (entry_name entry))).

(** The names of a real [/proc]: none is empty, and one that starts with
    a digit is a process identifier, decimal digits throughout. *)
Definition proc_names (entries : list ProcEntry) : bool :=
  forallb (fun entry =>
             nonempty (entry_name entry)
             && (negb (starts_with_digit (entry_name entry))
                 || is_numeric (entry_name entry)))
          entries.

(** The length of the payload [readIpcResponse] logged; [-1] when it
    logged an error. *)
Definition payload_length (r : ReadOutcome * list byte) : Z :=
  match r with
  | (Response payload, _) => Z.of_nat (length payload)
  | _ => -1
  end.

(** A body of exactly 2^32 bytes. *)
Definition body_4GiB : list byte := repeat x00 (Z.to_nat (2 ^ 32)).

(** The socket path a tick connects through: the path the session has,
    or a fresh probe when it has none. *)
Definition pathAfterProbe (uid : Z) (env : TickEnv) (s : Session) : string :=
  if String.eqb (socketPath s) "" then fst (findDiscordSocket uid (stat_ok env))
  else socketPath s.

(** The frames of [connectIPC] and [setActivity]. *)
Definition handshakeFrame (clientID : string) : list byte :=
  encodeFrame 0
    (list_byte_of_string (marshal_IpcHandshake {| V := 1; ClientID := clientID |})).

Definition activityFrame (appName : string) (pid : Z) (osRelease : string) (now : Z)
  : list byte :=
  encodeFrame 1
    (list_byte_of_string
       (marshal_DiscordRpcPayload (activityPayload appName pid osRelease now))).

(** [{"v":1,"client_id":"1209665818464358430"}] *)
Definition balatro_handshake_body : string :=
  "{" ++ Str.dq ++ "v" ++ Str.dq ++ ":1,"
      ++ Str.dq ++ "client_id" ++ Str.dq ++ ":"
      ++ Str.dq ++ "1209665818464358430" ++ Str.dq ++ "}".

(** A text between double quotes, as it stands. *)
Definition quoted (s : string) : string := Str.dq ++ s ++ Str.dq.

(** A byte the string encoder copies as it is. *)
Definition plain_char (c : ascii) : bool :=
  Str.is_ascii_char c && String.eqb (Json.escape_ascii c) (String c EmptyString).

(** The command body for Balatro under process 4321; [nonce] is the
    decimal text of the clock, [state] the JSON string of the state line:
    [{"cmd":"SET_ACTIVITY","nonce":"<nonce>","args":{"pid":4321,"activity":{"details":"Playing Balatro","state":<state>,"assets":{"large_image":"default","large_text":"Balatro"}}}}] *)
Definition balatro_command_body (nonce state : string) : string :=
  "{" ++ quoted "cmd" ++ ":" ++ quoted "SET_ACTIVITY" ++ ","
      ++ quoted "nonce" ++ ":" ++ quoted nonce ++ ","
      ++ quoted "args" ++ ":{" ++ quoted "pid" ++ ":4321,"
      ++ quoted "activity" ++ ":{"
      ++ quoted "details" ++ ":" ++ quoted "Playing Balatro" ++ ","
      ++ quoted "state" ++ ":" ++ state ++ ","
      ++ quoted "assets" ++ ":{"
      ++ quoted "large_image" ++ ":" ++ quoted "default" ++ ","
      ++ quoted "large_text" ++ ":" ++ quoted "Balatro" ++ "}}}}".

(** An event that shows a failed connect: a dial without a connection, or
    a handshake frame whose write failed. *)
Definition is_failed_connect (e : Event) : bool :=
  match e with
  | EvDial _ None => true
  | EvWrite _ _ ok => negb ok && is_frame 0 e
  | _ => false
  end.

Definition connect_failed (evs : list Event) : bool := existsb is_failed_connect evs.

(** ** Concrete data for the examples *)

Definition balatro_app : DetectableApp :=
  {| ID := "1209665818464358430";
     Name := "Balatro";
     Executables := [ {| exe_name := "balatro/balatro.exe"; exe_os := "win32" |} ] |}.

(** The catalog [populateMap] builds from [balatro_app]. *)
Definition balatro_catalog : gmap string string :=
  populateMap (fun s => s) [balatro_app] ∅.

(** Discord listens on the canonical socket of user 1000 only. *)
Definition canonical_socket_only (path : string) : bool :=
  String.eqb path "/run/user/1000/discord-ipc-0".

(** A tick that finds Balatro running and a peer that accepts the
    connection and sends nothing back. *)
Definition env_balatro : TickEnv :=
  {| scan := ("Balatro", 4321);
     stat_ok := canonical_socket_only;
     dial_ok := true;
     handshake_write_ok := true;
     peer_reply := [];
     clock := 1700000000000000000;
     activity_write_ok := true |}.

(** A tick that finds no game. *)
Definition env_no_game : TickEnv :=
  {| scan := ("", 0);
     stat_ok := canonical_socket_only;
     dial_ok := true;
     handshake_write_ok := true;
     peer_reply := [];
     clock := 1700000010000000000;
     activity_write_ok := true |}.

(** A tick that finds RimWorld, which the catalog does not know. *)
Definition env_rimworld : TickEnv :=
  {| scan := ("RimWorld", 5150);
     stat_ok := canonical_socket_only;
     dial_ok := true;
     handshake_write_ok := true;
     peer_reply := [];
     clock := 1700000015000000000;
     activity_write_ok := true |}.

(** The same tick with Discord gone: the socket file is there, the dial
    is refused. *)
Definition env_rimworld_refused : TickEnv :=
  {| scan := ("RimWorld", 5150);
     stat_ok := canonical_socket_only;
     dial_ok := false;
     handshake_write_ok := true;
     peer_reply := [];
     clock := 1700000015000000000;
     activity_write_ok := true |}.

(** The session before the first probe found a socket. *)
Definition session_no_socket : Session :=
  {| socketPath := ""; currentClientID := ""; ipcConn := None |}.

(** A session connected for Balatro on handle 0, and its world. *)
Definition session_balatro : Session :=
  {| socketPath := "/run/user/1000/discord-ipc-0";
     currentClientID := "1209665818464358430";
     ipcConn := Some 0%nat |}.

Definition world_balatro : World := {| open_conns := [0%nat]; next_conn := 1%nat |}.

(** A session that knows the socket and holds no connection. *)
Definition session_idle : Session :=
  {| socketPath := "/run/user/1000/discord-ipc-0";
     currentClientID := "";
     ipcConn := None |}.

(** [/proc/self], which is no process. *)
Definition entry_self : ProcEntry :=
  {| entry_name := "self";
     entry_is_dir := true;
     proc_exe := Some "/home/u/.steam/steamapps/common/Balatro/love";
     proc_cmdline := None |}.

(** A game started through the Steam runtime: the executable is the
    runtime's, the game shows up in the arguments. *)
Definition entry_812 : ProcEntry :=
  {| entry_name := "812";
     entry_is_dir := true;
     proc_exe :=
       Some "/home/u/.steam/steamapps/common/SteamLinuxRuntime_sniper/pressure-vessel";
     proc_cmdline :=
       Some ("/home/u/.steam/steamapps/common/SteamLinuxRuntime_sniper/run"
             ++ String zero
                  ("/home/u/.steam/steamapps/common/Balatro/love"
                   ++ String zero "")) |}.

(** ** More definitions the properties are stated with *)

(** A string without a slash. *)
Definition no_slash (s : string) : bool :=
  Str.all (fun c => negb (Ascii.eqb c "/")) s.

(** A string without a NUL byte. *)
Definition no_nul (s : string) : bool :=
  Str.all (fun c => negb (Ascii.eqb c zero)) s.

(** What [/proc/<pid>/cmdline] holds for an argument vector: each
    argument with a NUL byte behind it. *)
Fixpoint cmdline_of (args : list string) : string :=
  match args with
  | [] => ""
  | arg :: rest => arg ++ String zero (cmdline_of rest)
  end.

(** ** Configuration *)

(** The fields [loadConfig] reads from [config.json]. *)
Record Config := {
  ScanIntervalSeconds : Z;
  IgnoredGames : list string;
  DiscordApiVersion : Z
}.

(** What [loadConfig] finds: no file, a file that does not parse, or a
    parsed configuration. *)
Inductive ConfigFile :=
| ConfigMissing
| ConfigMalformed
| ConfigParsed (cfg : Config).

(** The package variables [loadConfig] writes. *)
Record Settings := {
  scanInterval : Z;                     (* a time.Duration, in nanoseconds *)
  ignoredGames : gmap string bool;
  discordApiUrl : string
}.

(** [int64] arithmetic keeps the low 64 bits. *)
Definition to_int64 (x : Z) : Z := (x + 2 ^ 63) mod 2 ^ 64 - 2 ^ 63.

(** [time.Second] *)
Definition Second : Z := 1000000000.

(** The values of the [var] block of [main.go]. *)
Definition defaultSettings : Settings :=
  {| scanInterval := 5 * Second;
     ignoredGames := defaultIgnoredGames;
     discordApiUrl := "https://discord.com/api/v10/applications/detectable" |}.

Definition loadConfig (file : ConfigFile) (st : Settings) : Settings :=
  match file with
  | ConfigMissing => st
  | ConfigMalformed => st
  | ConfigParsed cfg =>
      {| scanInterval :=
           if 0 <? ScanIntervalSeconds cfg
           then to_int64 (ScanIntervalSeconds cfg * Second)
           else scanInterval st;
         ignoredGames := mergeIgnored (IgnoredGames cfg) (ignoredGames st);
         discordApiUrl :=
           if 0 <? DiscordApiVersion cfg
           then "https://discord.com/api/v" ++ itoa (DiscordApiVersion cfg)
                ++ "/applications/detectable"
           else discordApiUrl st |}
  end.

(** ** Events against the set of open handles *)

Definition is_open (conn : Conn) (open : list Conn) : bool :=
  existsb (Nat.eqb conn) open.

(** The open handles after a run of events, and [None] when an event
    uses a handle that is not open or a dial gives out one that is. *)
Fixpoint replay (open : list Conn) (evs : list Event) : option (list Conn) :=
  match evs with
  | [] => Some open
  | EvDial _ None :: rest => replay open rest
  | EvDial _ (Some conn) :: rest =>
      if is_open conn open then None else replay (conn :: open) rest
  | EvWrite conn _ _ :: rest =>
      if is_open conn open then replay open rest else None
  | EvResponse conn _ :: rest =>
      if is_open conn open then replay open rest else None
  | EvClose conn :: rest =>
      if is_open conn open
      then replay (List.filter (fun c => negb (Nat.eqb c conn)) open) rest
      else None
  end.

(** A dial, if the event is one, goes to [path]. *)
Definition dials_only (path : string) (e : Event) : bool :=
  match e with
  | EvDial p _ => String.eqb p path
  | _ => true
  end.

(** ** The distribution label *)

(** [strings.TrimSpace] and [strings.Trim] as [readOSRelease] uses
    them. *)
Module Trim.

(** The table [asciiSpace] of package [strings]. *)
Definition asciiSpace (c : ascii) : bool :=
  let n := N_of_ascii c in
  ((n =? 9) || (n =? 10) || (n =? 11) || (n =? 12) || (n =? 13) || (n =? 32))%N.

(** Where the ASCII loop of [TrimSpace] ends: with the trimmed string,
    or at a byte above 127 with the string to hand to the Unicode
    version. *)
Inductive Outcome :=
| Plain (s : string)
| Slow (s : string).

(** The first loop: drop ASCII space from the front. *)
Fixpoint left (s : string) : Outcome :=
  match s with
  | EmptyString => Plain EmptyString
  | String c r =>
      if negb (Str.is_ascii_char c) then Slow s
      else if asciiSpace c then left r
      else Plain s
  end.

(** The second loop: drop ASCII space from the end. *)
Fixpoint right (s : string) : Outcome :=
  match s with
  | EmptyString => Plain EmptyString
  | String c r =>
      match right r with
      | Plain EmptyString =>
          if negb (Str.is_ascii_char c) then Slow (String c EmptyString)
          else if asciiSpace c then Plain EmptyString
          else Plain (String c EmptyString)
      | Plain t => Plain (String c t)
      | Slow t => Slow (String c t)
      end
  end.

(** [trimLeftByte] and [trimRightByte] of package [strings]. *)
Fixpoint leftByte (c : ascii) (s : string) : string :=
  match s with
  | EmptyString => EmptyString
  | String x r => if Ascii.eqb x c then leftByte c r else s
  end.

Fixpoint rightByte (c : ascii) (s : string) : string :=
  match s with
  | EmptyString => EmptyString
  | String x r =>
      match rightByte c r with
      | EmptyString => if Ascii.eqb x c then EmptyString else String x EmptyString
      | t => String x t
      end
  end.

(** [strings.Trim(s, cutset)] for a cutset of one ASCII byte. *)
Definition byte (c : ascii) (s : string) : string := leftByte c (rightByte c s).

(** [strings.SplitN(s, sep, 2)] for a one-byte separator, when it gives
    two parts. *)
Fixpoint cut (sep : ascii) (s : string) : option (string * string) :=
  match s with
  | EmptyString => None
  | String c r =>
      if Ascii.eqb c sep then Some (EmptyString, r)
      else match cut sep r with
           | Some (a, b) => Some (String c a, b)
           | None => None
           end
  end.

End Trim.

(** What [readOSRelease] gets from [/etc/os-release]: no file, or the
    lines the [bufio.Scanner] delivers and whether it ends with an
    error. *)
Inductive OsReleaseFile :=
| OsReleaseMissing
| OsReleaseLines (lines : list string) (scanner_err : bool).

Section OsRelease.

(** [strings.TrimFunc(s, unicode.IsSpace)] and
    [strings.TrimRightFunc(s, unicode.IsSpace)], which [TrimSpace] turns
    to at a byte above 127, belong to the Go library, and so does
    [runtime.GOOS]. *)
Variable TrimFunc_IsSpace : string -> string.
Variable TrimRightFunc_IsSpace : string -> string.
Variable GOOS : string.

Definition TrimSpace (s : string) : string :=
  match Trim.left s with
  | Trim.Slow rest => TrimFunc_IsSpace rest
  | Trim.Plain t =>
      match Trim.right t with
      | Trim.Plain u => u
      | Trim.Slow u => TrimRightFunc_IsSpace u
      end
  end.

(** The key and value [readOSRelease] takes from a line, if the line
    has a [=]. *)
Definition parseLine (line : string) : option (string * string) :=
  match Trim.cut "=" line with
  | Some (k, v) => Some (TrimSpace k, Trim.byte (ascii_of_N 34) (TrimSpace v))
  | None => None
  end.

(** The body of the scan loop: a line with a [=] writes to the map. *)
Definition distroInfoStep (m : gmap string string) (line : string)
  : gmap string string :=
  match parseLine line with
  | Some (k, v) => <[k := v]> m
  | None => m
  end.

(** The map [distroInfo] after the scan loop. *)
Definition distroInfo (lines : list string) : gmap string string :=
  fold_left distroInfoStep lines ∅.

Definition readOSRelease (file : OsReleaseFile) : string :=
  match file with
  | OsReleaseMissing => GOOS
  | OsReleaseLines lines scanner_err =>
      if scanner_err then GOOS
      else match distroInfo lines !! "PRETTY_NAME" with
           | Some name => name
           | None =>
               match distroInfo lines !! "NAME" with
               | Some name => name
               | None => GOOS
               end
           end
  end.

(** The key a line sets, if it sets one. *)
Definition lineKey (line : string) : option string :=
  option_map fst (parseLine line).

End OsRelease.

(** Two lines of an [/etc/os-release]. *)
Definition os_release_name_line : string :=
  "NAME=" ++ Str.dq ++ "Fedora Linux" ++ Str.dq.

Definition os_release_pretty_line : string :=
  "PRETTY_NAME=" ++ Str.dq ++ "Fedora Linux 43 (Kinoite)" ++ Str.dq.

(** ** More concrete data for the examples *)

(** A second app whose name has the normal form of [balatro_app]'s. *)
Definition balatro_dash_app : DetectableApp :=
  {| ID := "42"; Name := "B.A.L.A.T.R.O."; Executables := [] |}.

(** A parsed [config.json]. *)
Definition example_config : Config :=
  {| ScanIntervalSeconds := 15;
     IgnoredGames := ["SteamControllerConfigs"; "Proton Experimental"];
     DiscordApiVersion := 10 |}.

(** The session a failed game switch leaves: no connection, and the
    identifier of the game before. *)
Definition session_stale : Session :=
  {| socketPath := "/run/user/1000/discord-ipc-0";
     currentClientID := "1209665818464358430";
     ipcConn := None |}.

(** A tick that finds Balatro while the peer no longer takes writes. *)
Definition env_balatro_write_fails : TickEnv :=
  {| scan := ("Balatro", 4321);
     stat_ok := canonical_socket_only;
     dial_ok := false;
     handshake_write_ok := false;
     peer_reply := [];
     clock := 1700000005000000000;
     activity_write_ok := false |}.

(** [{"v":1,"client_id":"000000000000000000"}] *)
Definition sentinel_handshake_body : string :=
  "{" ++ Str.dq ++ "v" ++ Str.dq ++ ":1,"
      ++ Str.dq ++ "client_id" ++ Str.dq ++ ":"
      ++ Str.dq ++ "000000000000000000" ++ Str.dq ++ "}".

(** * Properties *)

(** ** Name normaliser *)

Lemma all_filter (p : ascii -> bool) (s : string) :
  Str.all p (Str.filter p s) = true.
Proof.
  induction s as [|c r IH]; cbn; [reflexivity|].
  destruct (p c) eqn:Hc; cbn; [rewrite Hc|]; exact IH.
Qed.

Lemma filter_all (p : ascii -> bool) (s : string) :
  Str.all p s = true -> Str.filter p s = s.
Proof.
  induction s as [|c r IH]; cbn; [reflexivity|].
  intros [Hc Hr]%andb_true_iff. rewrite Hc, IH; auto.
Qed.

Lemma all_weaken (p q : ascii -> bool) (s : string) :
  (forall c, p c = true -> q c = true) ->
  Str.all p s = true -> Str.all q s = true.
Proof.
  intros Hpq. induction s as [|c r IH]; cbn; [reflexivity|].
  intros [Hc Hr]%andb_true_iff. rewrite (Hpq _ Hc), IH; auto.
Qed.

Lemma map_fixed (p : ascii -> bool) (f : ascii -> ascii) (s : string) :
  (forall c, p c = true -> f c = c) ->
  Str.all p s = true -> Str.map f s = s.
Proof.
  intros Hf. induction s as [|c r IH]; cbn; [reflexivity|].
  intros [Hc Hr]%andb_true_iff. rewrite (Hf _ Hc), IH; auto.
Qed.

Lemma az09_range (c : ascii) :
  az09 c = true ->
  (97 <= N_of_ascii c <= 122 \/ 48 <= N_of_ascii c <= 57)%N.
Proof.
  unfold az09, Str.between.
  change (N_of_ascii "a") with 97%N. change (N_of_ascii "z") with 122%N.
  change (N_of_ascii "0") with 48%N. change (N_of_ascii "9") with 57%N.
  rewrite orb_true_iff, !andb_true_iff, !N.leb_le. tauto.
Qed.

Lemma az09_is_ascii (c : ascii) : az09 c = true -> Str.is_ascii_char c = true.
Proof.
  intros H%az09_range. unfold Str.is_ascii_char. apply N.ltb_lt. lia.
Qed.

Lemma az09_lower (c : ascii) : az09 c = true -> Str.lower_char c = c.
Proof.
  intros H%az09_range. unfold Str.lower_char, Str.between.
  change (N_of_ascii "A") with 65%N. change (N_of_ascii "Z") with 90%N.
  destruct (N.leb_spec 65 (N_of_ascii c)), (N.leb_spec (N_of_ascii c) 90);
    cbn; try reflexivity; lia.
Qed.

Section Normalizer.

Variable unicode_ToLower : string -> string.
Local Abbreviation normalize := (normalizeGameName unicode_ToLower).

Lemma normalize_az09 (x : string) : Str.all az09 (normalize x) = true.
Proof. apply all_filter. Qed.

(** A string of [[a-z0-9]] only is its own normal form. *)
Lemma normalize_fixed (s : string) : Str.all az09 s = true -> normalize s = s.
Proof.
  intros H. unfold normalizeGameName, strip_non_az09, ToLower.
  rewrite (all_weaken _ _ _ az09_is_ascii H).
  rewrite (map_fixed _ _ _ az09_lower H).
  apply filter_all, H.
Qed.

(** C9. [normalizeGameName] is idempotent: normalising a normalised name
    changes nothing, for every input string and whatever
    [unicode.ToLower] does outside ASCII. *)
Theorem normalizeGameName_idempotent (x : string) :
  normalizeGameName unicode_ToLower (normalizeGameName unicode_ToLower x)
  = normalizeGameName unicode_ToLower x.
Proof. apply normalize_fixed, normalize_az09. Qed.

(** ** Game catalog *)

Lemma populateMap_app (pre post : list DetectableApp) (m : gmap string string) :
  populateMap unicode_ToLower (pre ++ post)%list m
  = populateMap unicode_ToLower post (populateMap unicode_ToLower pre m).
Proof. unfold populateMap. apply fold_left_app. Qed.

(** Apps stored under other keys leave a key as it was. *)
Lemma populateMap_other (apps : list DetectableApp) (m : gmap string string)
    (k : string) :
  Forall (fun a => normalize (Name a) <> k) apps ->
  populateMap unicode_ToLower apps m !! k = m !! k.
Proof.
  revert m. induction apps as [|a apps IH]; intros m Hall; [reflexivity|].
  inversion Hall as [|? ? Ha Hrest]; subst.
  change (populateMap unicode_ToLower (a :: apps) m)
    with (populateMap unicode_ToLower apps (<[normalize (Name a) := ID a]> m)).
  rewrite IH by assumption. apply lookup_insert_ne, Ha.
Qed.

(** The last app of a key is the one the catalog keeps. *)
Lemma populateMap_last (pre post : list DetectableApp) (app : DetectableApp)
    (m : gmap string string) :
  Forall (fun a => normalize (Name a) <> normalize (Name app)) post ->
  populateMap unicode_ToLower (pre ++ app :: post)%list m !! normalize (Name app)
  = Some (ID app).
Proof.
  intros Hpost. rewrite populateMap_app.
  change (populateMap unicode_ToLower (app :: post) ?m')
    with (populateMap unicode_ToLower post (<[normalize (Name app) := ID app]> m')).
  rewrite populateMap_other by assumption. apply lookup_insert_eq.
Qed.

(** C4. Resolving a name gives the identifier the catalog stores under
    the normalised name, and the sentinel, eighteen zeros, when the
    catalog has no such key.  For a catalog built by [populateMap], the identifier stored for
    an app's name is the one of the last app with that normalised name,
    and a name no app normalises to resolves to the sentinel. *)
Theorem resolveClientID_catalog (nameToID : gmap string string) (name : string) :
  (forall id, nameToID !! normalize name = Some id ->
              resolveClientID unicode_ToLower nameToID name = id)
  /\ (nameToID !! normalize name = None ->
      resolveClientID unicode_ToLower nameToID name = "000000000000000000")
  /\ (forall pre app post,
        normalize (Name app) = normalize name ->
        Forall (fun a => normalize (Name a) <> normalize name) post ->
        resolveClientID unicode_ToLower
          (populateMap unicode_ToLower (pre ++ app :: post)%list nameToID) name
        = ID app)
  /\ (forall apps,
        nameToID !! normalize name = None ->
        Forall (fun a => normalize (Name a) <> normalize name) apps ->
        resolveClientID unicode_ToLower
          (populateMap unicode_ToLower apps nameToID) name
        = "000000000000000000").
Proof.
  unfold resolveClientID. repeat split.
  - intros id ->. reflexivity.
  - intros ->. reflexivity.
  - intros pre app post Hkey Hpost. rewrite <- Hkey in *.
    rewrite populateMap_last by assumption. reflexivity.
  - intros apps Hnone Hall.
    rewrite populateMap_other, Hnone by assumption. reflexivity.
Qed.

End Normalizer.

(** ** Process scanner *)

Lemma nonempty_true (s : string) : nonempty s = true <-> s <> "".
Proof.
  unfold nonempty. rewrite negb_true_iff. apply String.eqb_neq.
Qed.

Lemma nonempty_false (s : string) : nonempty s = false <-> s = "".
Proof.
  unfold nonempty. rewrite negb_false_iff. apply String.eqb_eq.
Qed.

Lemma is_ignored_false (ignoredGames : gmap string bool) (name : string) :
  is_ignored ignoredGames name = false -> ignoredGames !! name <> Some true.
Proof.
  unfold is_ignored. intros H Hin. rewrite Hin in H. discriminate.
Qed.

Lemma accepted_spec (ignoredGames : gmap string bool) (name : string) :
  accepted ignoredGames name = true ->
  name <> "" /\ is_ignored ignoredGames name = false.
Proof.
  unfold accepted. intros [H1 H2]%andb_true_iff.
  split; [apply nonempty_true, H1 | apply negb_true_iff, H2].
Qed.

(** The argument loop returns an accepted name or nothing. *)
Lemma scanArgs_accepted (ignoredGames : gmap string bool) (args : list string) :
  scanArgs ignoredGames args = ""
  \/ accepted ignoredGames (scanArgs ignoredGames args) = true.
Proof.
  induction args as [|arg rest IH]; cbn; [left; reflexivity|].
  destruct (String.length arg =? 0)%nat; [exact IH|].
  fold (accepted ignoredGames (extractSteamGameName arg)).
  destruct (accepted ignoredGames (extractSteamGameName arg)) eqn:Hacc;
    [right; exact Hacc | exact IH].
Qed.

Lemma scanEntries_accepted (ignoredGames : gmap string bool)
    (entries : list ProcEntry) (name : string) (pid : Z) :
  scanEntries ignoredGames entries = Some (name, pid) ->
  (name = "" /\ pid = 0) \/ accepted ignoredGames name = true.
Proof.
  induction entries as [|entry rest IH]; cbn.
  - intros [= <- <-]. left. split; reflexivity.
  - destruct (entry_is_dir entry); cbn; [|exact IH].
    destruct (entry_name entry) as [|c0 tail]; [discriminate|].
    destruct (is_digit c0); cbn; [|exact IH].
    destruct (proc_exe entry) as [exePath|].
    + fold (accepted ignoredGames (extractSteamGameName exePath)).
      destruct (accepted ignoredGames (extractSteamGameName exePath)) eqn:Hexe.
      * intros [= <- <-]. right. exact Hexe.
      * fold (accepted ignoredGames (scanCmdline ignoredGames (proc_cmdline entry))).
        destruct (accepted ignoredGames
                    (scanCmdline ignoredGames (proc_cmdline entry))) eqn:Hcmd;
          [intros [= <- <-]; right; exact Hcmd | exact IH].
    + fold (accepted ignoredGames (scanCmdline ignoredGames (proc_cmdline entry))).
      destruct (accepted ignoredGames
                  (scanCmdline ignoredGames (proc_cmdline entry))) eqn:Hcmd;
        [intros [= <- <-]; right; exact Hcmd | exact IH].
Qed.

(** X10. The scan returns, whatever the processes are, once every
    directory entry has a name, as every entry of a real directory does:
    no unreadable link or file, and nothing a process puts on its command
    line, makes it fail. *)
Lemma scanProcesses_returns (ignoredGames : gmap string bool)
    (proc : option (list ProcEntry)) :
  (forall entries, proc = Some entries ->
     Forall (fun e => entry_name e <> "") entries) ->
  exists name pid, scanProcesses ignoredGames proc = Some (name, pid).
Proof.
  destruct proc as [entries|]; cbn; [|eauto].
  intros Hnames. specialize (Hnames entries eq_refl).
  induction Hnames as [|entry rest Hname _ IH]; cbn; [eauto|].
  destruct (entry_is_dir entry); cbn; [|exact IH].
  destruct (entry_name entry) as [|c0 tail]; [contradiction|].
  destruct (is_digit c0); cbn; [|exact IH].
  destruct (match proc_exe entry with
            | Some exePath =>
                if nonempty (extractSteamGameName exePath)
                   && negb (is_ignored ignoredGames (extractSteamGameName exePath))
                then Some (extractSteamGameName exePath) else None
            | None => None
            end); [eauto|].
  destruct (nonempty (scanCmdline ignoredGames (proc_cmdline entry))
            && negb (is_ignored ignoredGames
                       (scanCmdline ignoredGames (proc_cmdline entry))));
    [eauto | exact IH].
Qed.

(** C5. Whatever the process table holds, and whichever of the two paths
    (executable link, command-line arguments) produced the candidate, a
    scan that returns gives either no game (the empty name with pid 0) or
    a non-empty name that the ignore set does not hold. *)
Theorem scanProcesses_never_ignored (ignoredGames : gmap string bool)
    (proc : option (list ProcEntry)) (name : string) (pid : Z) :
  scanProcesses ignoredGames proc = Some (name, pid) ->
  (name = "" /\ pid = 0)
  \/ (name <> "" /\ is_ignored ignoredGames name = false
      /\ ignoredGames !! name <> Some true).
Proof.
  destruct proc as [entries|]; cbn.
  - intros [Hnone|Hacc%accepted_spec]%scanEntries_accepted; [left; exact Hnone|].
    right. destruct Hacc as [Hne Hig].
    repeat split; [exact Hne | exact Hig | apply is_ignored_false, Hig].
  - intros [= <- <-]. left. split; reflexivity.
Qed.

Lemma scanEntries_passed_over (ignoredGames : gmap string bool)
    (entry : ProcEntry) (rest : list ProcEntry) :
  passed_over entry = true ->
  scanEntries ignoredGames (entry :: rest) = scanEntries ignoredGames rest.
Proof.
  unfold passed_over. cbn.
  destruct (entry_is_dir entry); cbn; [|reflexivity].
  destruct (entry_name entry) as [|c0 tail]; cbn; [discriminate|].
  intros ->. reflexivity.
Qed.

Lemma scanEntries_cons_congr (ignoredGames : gmap string bool)
    (entry : ProcEntry) (l1 l2 : list ProcEntry) :
  scanEntries ignoredGames l1 = scanEntries ignoredGames l2 ->
  scanEntries ignoredGames (entry :: l1) = scanEntries ignoredGames (entry :: l2).
Proof. intros H. cbn. rewrite H. reflexivity. Qed.

Lemma scanEntries_contributor (ignoredGames : gmap string bool)
    (entries : list ProcEntry) (name : string) (pid : Z) :
  scanEntries ignoredGames entries = Some (name, pid) ->
  name <> "" ->
  exists entry, In entry entries
    /\ entry_is_dir entry = true
    /\ starts_with_digit (entry_name entry) = true
    /\ pid = Sscanf_d (entry_name entry).
Proof.
  induction entries as [|entry rest IH]; cbn.
  - intros [= <- <-] Hne. contradiction.
  - intros Hscan Hne.
    assert (Hrest : scanEntries ignoredGames rest = Some (name, pid) ->
                    exists e, (entry = e \/ In e rest)
                      /\ entry_is_dir e = true
                      /\ starts_with_digit (entry_name e) = true
                      /\ pid = Sscanf_d (entry_name e)).
    { intros H. destruct (IH H Hne) as (e & Hin & He). exists e. tauto. }
    destruct (entry_is_dir entry) eqn:Hdir; cbn in Hscan; [|auto].
    destruct (entry_name entry) as [|c0 tail] eqn:Hname; [discriminate|].
    destruct (is_digit c0) eqn:Hdigit; cbn in Hscan; [|auto].
    assert (Hhere : forall n, Some (n, Sscanf_d (String c0 tail)) = Some (name, pid) ->
                    exists e, (entry = e \/ In e rest)
                      /\ entry_is_dir e = true
                      /\ starts_with_digit (entry_name e) = true
                      /\ pid = Sscanf_d (entry_name e)).
    { intros n [= _ <-]. exists entry. rewrite Hname. cbn. auto. }
    destruct (proc_exe entry) as [exePath|].
    + destruct (nonempty (extractSteamGameName exePath)
                && negb (is_ignored ignoredGames (extractSteamGameName exePath)));
        [eauto|].
      destruct (nonempty (scanCmdline ignoredGames (proc_cmdline entry))
                && negb (is_ignored ignoredGames
                           (scanCmdline ignoredGames (proc_cmdline entry))));
        eauto.
    + destruct (nonempty (scanCmdline ignoredGames (proc_cmdline entry))
                && negb (is_ignored ignoredGames
                           (scanCmdline ignoredGames (proc_cmdline entry))));
        eauto.
Qed.

(** The test the loop makes.  The scan passes over every entry that is not
    a directory and every entry whose name does not start with a decimal
    digit: the result is the same with and without it.  A game that is
    returned comes from a directory entry whose name starts with a digit,
    and the pid is what [Sscanf] reads from that name. *)
Lemma scanProcesses_first_byte_filter (ignoredGames : gmap string bool) :
  (forall pre entry post,
      passed_over entry = true ->
      scanProcesses ignoredGames (Some (pre ++ entry :: post)%list)
      = scanProcesses ignoredGames (Some (pre ++ post)%list))
  /\ (forall entries name pid,
        scanProcesses ignoredGames (Some entries) = Some (name, pid) ->
        name <> "" ->
        exists entry, In entry entries
          /\ entry_is_dir entry = true
          /\ starts_with_digit (entry_name entry) = true
          /\ pid = Sscanf_d (entry_name entry)).
Proof.
  split.
  - intros pre entry post Hskip. unfold scanProcesses.
    induction pre as [|e pre IH].
    + apply scanEntries_passed_over, Hskip.
    + apply scanEntries_cons_congr, IH.
  - intros entries name pid. apply scanEntries_contributor.
Qed.

Lemma proc_names_entry (entries : list ProcEntry) (entry : ProcEntry) :
  proc_names entries = true ->
  In entry entries ->
  entry_name entry <> ""
  /\ (starts_with_digit (entry_name entry) = true ->
      is_numeric (entry_name entry) = true).
Proof.
  unfold proc_names. rewrite forallb_forall. intros Hall Hin.
  apply Hall in Hin. apply andb_true_iff in Hin as [Hne Hnum].
  split; [apply nonempty_true, Hne|].
  intros Hdigit. rewrite Hdigit in Hnum. exact Hnum.
Qed.

(** C8. On the process table, where no name is empty and a name that
    starts with a digit is a process identifier, the scan ignores every
    entry whose name is not purely numeric: the result is the same with
    and without the entry.  A game that is returned comes from a
    directory entry with a numeric name, and the pid reported is what
    [Sscanf] reads from that name. *)
Theorem scanProcesses_numeric_only (ignoredGames : gmap string bool) :
  (forall pre entry post,
      proc_names (pre ++ entry :: post)%list = true ->
      is_numeric (entry_name entry) = false ->
      scanProcesses ignoredGames (Some (pre ++ entry :: post)%list)
      = scanProcesses ignoredGames (Some (pre ++ post)%list))
  /\ (forall entries name pid,
        proc_names entries = true ->
        scanProcesses ignoredGames (Some entries) = Some (name, pid) ->
        name <> "" ->
        exists entry, In entry entries
          /\ entry_is_dir entry = true
          /\ is_numeric (entry_name entry) = true
          /\ pid = Sscanf_d (entry_name entry)).
Proof.
  split.
  - intros pre entry post Hnames Hnum.
    apply (proj1 (scanProcesses_first_byte_filter ignoredGames)).
    destruct (proc_names_entry _ entry Hnames) as [Hne Hdigit].
    { apply in_or_app. right. left. reflexivity. }
    unfold passed_over. apply orb_true_iff. right.
    apply andb_true_iff. split; [apply nonempty_true, Hne|].
    destruct (starts_with_digit (entry_name entry)); [|reflexivity].
    rewrite Hdigit in Hnum by reflexivity. discriminate.
  - intros entries name pid Hnames Hscan Hne.
    destruct (proj2 (scanProcesses_first_byte_filter ignoredGames)
                entries name pid Hscan Hne)
      as (entry & Hin & Hdir & Hdigit & Hpid).
    exists entry. repeat apply conj; try assumption.
    apply (proc_names_entry _ entry Hnames Hin), Hdigit.
Qed.

(** ** IPC codec *)

Lemma Z_of_byte_of_Z (z : Z) : 0 <= z < 256 -> Z_of_byte (byte_of_Z z) = z.
Proof.
  intros Hz. unfold Z_of_byte, byte_of_Z.
  destruct (Byte.of_N (Z.to_N z)) as [b|] eqn:Hb.
  - apply Byte.to_of_N in Hb. rewrite Hb. lia.
  - apply Byte.of_N_None_iff in Hb. lia.
Qed.

Lemma low_byte_range (v : Z) : 0 <= Z.land v 255 < 256.
Proof.
  change 255 with (Z.ones 8). rewrite Z.land_ones by lia.
  apply Z.mod_pos_bound. lia.
Qed.

Lemma low_byte_bit (v n : Z) :
  0 <= n -> Z.testbit (Z.land v 255) n = Z.testbit v n && (n <? 8).
Proof.
  intros Hn. change 255 with (Z.ones 8). rewrite Z.land_spec.
  destruct (Z.ltb_spec n 8).
  - rewrite Z.ones_spec_low by lia. reflexivity.
  - rewrite Z.ones_spec_high by lia. reflexivity.
Qed.

(** Byte [k] of [v], moved back to its place, has the bits of [v] from
    [8k] to [8k+7]. *)
Lemma placed_byte_bit (v k n : Z) :
  0 <= k -> 0 <= n ->
  Z.testbit (Z.shiftl (Z.land (Z.shiftr v k) 255) k) n
  = Z.testbit v n && (k <=? n) && (n <? k + 8).
Proof.
  intros Hk Hn. destruct (Z.leb_spec k n).
  - rewrite Z.shiftl_spec by lia. rewrite low_byte_bit by lia.
    rewrite Z.shiftr_spec by lia. replace (n - k + k) with n by lia.
    rewrite andb_true_r. f_equal.
    destruct (Z.ltb_spec (n - k) 8), (Z.ltb_spec n (k + 8)); try reflexivity; lia.
  - rewrite Z.shiftl_spec_low by lia. rewrite andb_false_r. reflexivity.
Qed.

(** Reading back the four bytes gives the low 32 bits. *)
Lemma Uint32_PutUint32 (v : Z) :
  LittleEndian_Uint32 (LittleEndian_PutUint32 v) = v mod 2 ^ 32.
Proof.
  unfold LittleEndian_Uint32, LittleEndian_PutUint32. cbn [nth].
  rewrite !Z_of_byte_of_Z by apply low_byte_range.
  apply Z.bits_inj'. intros n Hn.
  rewrite !Z.lor_spec.
  rewrite !placed_byte_bit by lia.
  rewrite low_byte_bit by lia.
  destruct (Z.ltb_spec n 32).
  - rewrite Z.mod_pow2_bits_low by lia.
    destruct (Z.testbit v n); cbn; [|reflexivity].
    destruct (Z.ltb_spec n 8), (Z.leb_spec 8 n), (Z.ltb_spec n (8 + 8)),
      (Z.leb_spec 16 n), (Z.ltb_spec n (16 + 8)), (Z.leb_spec 24 n),
      (Z.ltb_spec n (24 + 8)); cbn; try reflexivity; lia.
  - rewrite Z.mod_pow2_bits_high by lia.
    destruct (Z.ltb_spec n 8), (Z.ltb_spec n (8 + 8)), (Z.ltb_spec n (16 + 8)),
      (Z.ltb_spec n (24 + 8)); lia.
Qed.

Lemma to_int32_small (x : Z) : - 2 ^ 31 <= x < 2 ^ 31 -> to_int32 x = x.
Proof. intros H. unfold to_int32. rewrite Z.mod_small; lia. Qed.

Lemma to_int32_low_bits (x : Z) : to_int32 x mod 2 ^ 32 = x mod 2 ^ 32.
Proof.
  unfold to_int32.
  rewrite <- (Zminus_mod_idemp_l ((x + 2 ^ 31) mod 2 ^ 32)).
  rewrite Z.mod_mod by lia. rewrite Zminus_mod_idemp_l.
  f_equal. lia.
Qed.

Lemma to_int32_of_low_bits (x : Z) :
  - 2 ^ 31 <= x < 2 ^ 31 -> to_int32 (x mod 2 ^ 32) = x.
Proof.
  intros H. unfold to_int32. rewrite Zplus_mod_idemp_l.
  rewrite Z.mod_small; lia.
Qed.

Lemma PutUint32_length (v : Z) : length (LittleEndian_PutUint32 v) = 4%nat.
Proof. reflexivity. Qed.

(** The frame is the two header words and then the body. *)
Lemma encodeFrame_parts (opcode : Z) (body : list byte) :
  firstn 4 (encodeFrame opcode body) = LittleEndian_PutUint32 (to_int32 opcode)
  /\ firstn 4 (skipn 4 (encodeFrame opcode body))
     = LittleEndian_PutUint32 (to_int32 (Z.of_nat (length body)))
  /\ skipn 8 (encodeFrame opcode body) = body
  /\ firstn 8 (encodeFrame opcode body)
     = (LittleEndian_PutUint32 (to_int32 opcode)
        ++ LittleEndian_PutUint32 (to_int32 (Z.of_nat (length body))))%list.
Proof. repeat split; reflexivity. Qed.

(** The opcode of a written frame, read back from its header. *)
Lemma encodeFrame_opcode (opcode : Z) (body : list byte) :
  - 2 ^ 31 <= opcode < 2 ^ 31 ->
  to_int32 (LittleEndian_Uint32 (firstn 4 (encodeFrame opcode body))) = opcode.
Proof.
  intros H. destruct (encodeFrame_parts opcode body) as (-> & _).
  rewrite Uint32_PutUint32, to_int32_low_bits. apply to_int32_of_low_bits, H.
Qed.

(** The length field of a written frame, read unsigned: the low 32 bits
    of the body's length. *)
Lemma encodeFrame_length_field (opcode : Z) (body : list byte) :
  LittleEndian_Uint32 (firstn 4 (skipn 4 (encodeFrame opcode body)))
  = Z.of_nat (length body) mod 2 ^ 32.
Proof.
  destruct (encodeFrame_parts opcode body) as (_ & -> & _).
  rewrite Uint32_PutUint32. apply to_int32_low_bits.
Qed.

Lemma conn_Read_app (body rest : list byte) :
  conn_Read (length body) (body ++ rest)%list = Some (body, rest).
Proof.
  destruct body as [|b body]; [reflexivity|].
  unfold conn_Read.
  remember (length (b :: body)) as n eqn:Hn.
  destruct n as [|n]; [discriminate|].
  change ((b :: body) ++ rest)%list with (b :: (body ++ rest))%list. cbv iota.
  change (b :: (body ++ rest))%list with ((b :: body) ++ rest)%list.
  rewrite Hn, take_app_length, drop_app_length, Nat.sub_diag, app_nil_r.
  reflexivity.
Qed.

(** A read that finds at least the bytes it asks for fills its buffer. *)
Lemma conn_Read_full (n : nat) (avail : list byte) :
  (0 < n <= length avail)%nat ->
  conn_Read n avail = Some (firstn n avail, skipn n avail).
Proof.
  intros Hn. rewrite <- (firstn_skipn n avail) at 1.
  rewrite <- (conn_Read_app (firstn n avail) (skipn n avail)).
  rewrite length_firstn, Nat.min_l by lia. reflexivity.
Qed.

(** The frame read back once it has arrived: the header before the first
    read, the body before the second. *)
Lemma readIpcResponse_on_arrived (opcode : Z) (body rest first later : list byte) :
  Z.of_nat (length body) < 2 ^ 32 ->
  (first ++ later)%list = (encodeFrame opcode body ++ rest)%list ->
  (8 <= length first)%nat ->
  readIpcResponse_on first later = (Response body, rest).
Proof.
  intros Hlen Heq Hfirst.
  assert (Hhead : firstn 8 first = firstn 8 (encodeFrame opcode body)).
  { rewrite <- (take_app_le first later 8) by exact Hfirst.
    rewrite Heq. reflexivity. }
  assert (Htail : (skipn 8 first ++ later)%list = (body ++ rest)%list).
  { rewrite <- (drop_app_le first later 8) by exact Hfirst.
    rewrite Heq. reflexivity. }
  unfold readIpcResponse_on.
  rewrite conn_Read_full by lia.
  rewrite Hhead, Htail.
  change (skipn 4 (firstn 8 (encodeFrame opcode body)))
    with (firstn 4 (skipn 4 (encodeFrame opcode body))).
  rewrite encodeFrame_length_field.
  rewrite Z.mod_small by lia. rewrite Nat2Z.id.
  rewrite conn_Read_app. reflexivity.
Qed.

(** C3, within the reach of the length field.  For an opcode in the
    signed 32-bit range and a body of fewer than 2^32 bytes, the frame is
    eight header bytes and the body; the header holds the opcode and the
    exact length of the body, both little-endian, and the body stands
    behind it unchanged.  Read back by [readIpcResponse], the frame gives
    the body and nothing is left unread, whenever its header has arrived
    before the header is read and the rest of it before the payload is
    read. *)
Theorem frame_round_trip (opcode : Z) (body : list byte) :
  - 2 ^ 31 <= opcode < 2 ^ 31 ->
  Z.of_nat (length body) < 2 ^ 32 ->
  length (encodeFrame opcode body) = (8 + length body)%nat
  /\ to_int32 (LittleEndian_Uint32 (firstn 4 (encodeFrame opcode body))) = opcode
  /\ LittleEndian_Uint32 (firstn 4 (skipn 4 (encodeFrame opcode body)))
     = Z.of_nat (length body)
  /\ skipn 8 (encodeFrame opcode body) = body
  /\ (forall first later,
        (first ++ later)%list = encodeFrame opcode body ->
        (8 <= length first)%nat ->
        readIpcResponse_on first later = (Response body, [])).
Proof.
  intros Hop Hlen.
  assert (Hfield : LittleEndian_Uint32 (firstn 4 (skipn 4 (encodeFrame opcode body)))
                   = Z.of_nat (length body)).
  { rewrite encodeFrame_length_field. apply Z.mod_small. lia. }
  refine (conj _ (conj _ (conj Hfield (conj _ _)))).
  - reflexivity.
  - apply encodeFrame_opcode, Hop.
  - reflexivity.
  - intros first later Heq Hfirst.
    apply (readIpcResponse_on_arrived opcode); [exact Hlen | | exact Hfirst].
    rewrite app_nil_r. exact Heq.
Qed.

Lemma frame_round_trip_witness :
  readIpcResponse_on (firstn 9 (encodeFrame 1 [x7b; x7d]))
                     (skipn 9 (encodeFrame 1 [x7b; x7d]))
  = (Response [x7b; x7d], []).
Proof.
  destruct (frame_round_trip 1 [x7b; x7d]) as (_ & _ & _ & _ & Hread);
    [lia | cbn; lia |].
  apply Hread; [reflexivity | vm_compute; lia].
Defined.

(** A body of exactly 2^32 bytes is framed with length 0 and not read
    back at all. *)
Lemma frame_of_2_32_bytes (opcode : Z) (body : list byte) :
  Z.of_nat (length body) = 2 ^ 32 ->
  LittleEndian_Uint32 (firstn 4 (skipn 4 (encodeFrame opcode body))) = 0
  /\ readIpcResponse_on (encodeFrame opcode body) []
     = (Response [], (body ++ [])%list).
Proof.
  intros Hlen.
  assert (Hfield : LittleEndian_Uint32 (firstn 4 (skipn 4 (encodeFrame opcode body))) = 0).
  { rewrite encodeFrame_length_field, Hlen. reflexivity. }
  split; [exact Hfield|].
  unfold readIpcResponse_on.
  change (conn_Read 8 (encodeFrame opcode body))
    with (Some (firstn 8 (encodeFrame opcode body), skipn 8 (encodeFrame opcode body))).
  cbv iota beta.
  change (skipn 4 (firstn 8 (encodeFrame opcode body)))
    with (firstn 4 (skipn 4 (encodeFrame opcode body))).
  rewrite Hfield. reflexivity.
Qed.

Lemma payload_length_Response (payload rest : list byte) :
  payload_length (Response payload, rest) = Z.of_nat (length payload).
Proof. reflexivity. Qed.

Lemma body_4GiB_length : Z.of_nat (length body_4GiB) = 2 ^ 32.
Proof.
  unfold body_4GiB. rewrite repeat_length. apply Z2Nat.id. lia.
Qed.

(** Counterexample to C3 as worded, a body the length field cannot
    hold: [int32(len(payload))] keeps the low 32 bits, so a body of 2^32
    bytes is framed with length 0, and reading the frame back, all of it
    arrived, gives an empty payload. *)
Lemma frame_length_wraps :
  LittleEndian_Uint32 (firstn 4 (skipn 4 (encodeFrame 1 body_4GiB)))
  <> Z.of_nat (length body_4GiB)
  /\ readIpcResponse_on (encodeFrame 1 body_4GiB) [] <> (Response body_4GiB, []).
Proof.
  destruct (frame_of_2_32_bytes 1 body_4GiB) as [Hfield Hdec];
    [exact body_4GiB_length |].
  rewrite Hfield, Hdec. clear Hfield Hdec.
  split.
  - rewrite body_4GiB_length. lia.
  - intros Heq. apply (f_equal payload_length) in Heq.
    rewrite !payload_length_Response, body_4GiB_length in Heq.
    discriminate Heq.
Qed.

(** ** Connection session and bridge loop *)

Arguments encodeFrame : simpl never.
Arguments marshal_IpcHandshake : simpl never.
Arguments marshal_DiscordRpcPayload : simpl never.
Arguments activityPayload : simpl never.
Arguments list_byte_of_string : simpl never.
Arguments readIpcResponse : simpl never.
Arguments findDiscordSocket : simpl never.
Arguments resolveClientID : simpl never.
Arguments nonempty : simpl never.
Arguments String.eqb : simpl never.
Arguments is_frame : simpl never.
Arguments handshakeFrame : simpl never.
Arguments activityFrame : simpl never.

Lemma is_frame_encodeFrame (opcode : Z) (conn : Conn) (op : Z) (body : list byte)
    (ok : bool) :
  - 2 ^ 31 <= op < 2 ^ 31 ->
  is_frame opcode (EvWrite conn (encodeFrame op body) ok) = (op =? opcode).
Proof.
  intros H. unfold is_frame. rewrite encodeFrame_opcode by exact H. reflexivity.
Qed.

Lemma is_frame_handshake (opcode : Z) (conn : Conn) (clientID : string) (ok : bool) :
  is_frame opcode (EvWrite conn (handshakeFrame clientID) ok) = (0 =? opcode).
Proof.
  unfold is_frame, handshakeFrame. rewrite encodeFrame_opcode by lia. reflexivity.
Qed.

Lemma is_frame_dial (opcode : Z) (path : string) (r : option Conn) :
  is_frame opcode (EvDial path r) = false.
Proof. reflexivity. Qed.

Lemma is_frame_response (opcode : Z) (conn : Conn) (o : ReadOutcome) :
  is_frame opcode (EvResponse conn o) = false.
Proof. reflexivity. Qed.

Lemma is_frame_close (opcode : Z) (conn : Conn) :
  is_frame opcode (EvClose conn) = false.
Proof. reflexivity. Qed.

Create Rewrite HintDb frames.

#[local] Hint Rewrite is_frame_handshake is_frame_dial is_frame_response
  is_frame_close : frames.

Lemma is_frame_activity (opcode : Z) (conn : Conn) (appName : string) (pid : Z)
    (osRelease : string) (now : Z) (ok : bool) :
  is_frame opcode (EvWrite conn (activityFrame appName pid osRelease now) ok)
  = (1 =? opcode).
Proof.
  unfold is_frame, activityFrame. rewrite encodeFrame_opcode by lia. reflexivity.
Qed.

#[local] Hint Rewrite is_frame_activity : frames.

Lemma eqb_empty_false (s : string) : nonempty s = true -> String.eqb s "" = false.
Proof. unfold nonempty. apply negb_true_iff. Qed.

Ltac io_unfold :=
  unfold bind, ret, net_Dial, sendIPCPacket, conn_Write, conn_Close,
    conn_readIpcResponse.

(** [connectIPC] when the dial fails. *)
Lemma connectIPC_dial_failed (env : TickEnv) (path clientID : string) (w : World) :
  dial_ok env = false ->
  connectIPC env path clientID w = (None, w, [EvDial path None]).
Proof.
  intros Hd. unfold connectIPC. io_unfold. rewrite Hd. reflexivity.
Qed.

(** [connectIPC] when the handshake write fails: the connection is closed
    again. *)
Lemma connectIPC_write_failed (env : TickEnv) (path clientID : string) (w : World) :
  dial_ok env = true -> handshake_write_ok env = false ->
  connectIPC env path clientID w
  = (None,
     {| open_conns :=
          List.filter (fun c => negb (Nat.eqb c (next_conn w)))
                      (next_conn w :: open_conns w);
        next_conn := S (next_conn w) |},
     [EvDial path (Some (next_conn w));
      EvWrite (next_conn w) (handshakeFrame clientID) false;
      EvClose (next_conn w)]).
Proof.
  intros Hd Hw. unfold connectIPC. io_unfold. rewrite Hd, Hw. reflexivity.
Qed.

(** [connectIPC] when the dial and the handshake write succeed. *)
Lemma connectIPC_connected (env : TickEnv) (path clientID : string) (w : World) :
  dial_ok env = true ->
  handshake_write_ok env = true ->
  connectIPC env path clientID w
  = (Some (next_conn w),
     {| open_conns := next_conn w :: open_conns w; next_conn := S (next_conn w) |},
     [EvDial path (Some (next_conn w));
      EvWrite (next_conn w) (handshakeFrame clientID) true;
      EvResponse (next_conn w) (fst (readIpcResponse (peer_reply env)))]).
Proof.
  intros Hd Hw. unfold connectIPC. io_unfold. rewrite Hd, Hw. reflexivity.
Qed.

(** C10. When the dial and the handshake write succeed, [connectIPC]
    returns the new connection and leaves it open, whatever the peer
    sends back: the outcome of [readIpcResponse], a header error and a
    payload error included, is logged and plays no part in the result,
    and the events of the call do not show a failed connect. *)
Theorem connectIPC_ignores_response (env : TickEnv) (path clientID : string)
    (w : World) :
  dial_ok env = true ->
  handshake_write_ok env = true ->
  fst (fst (connectIPC env path clientID w)) = Some (next_conn w)
  /\ open_conns (snd (fst (connectIPC env path clientID w)))
     = next_conn w :: open_conns w
  /\ snd (connectIPC env path clientID w)
     = [EvDial path (Some (next_conn w));
        EvWrite (next_conn w) (handshakeFrame clientID) true;
        EvResponse (next_conn w) (fst (readIpcResponse (peer_reply env)))]
  /\ connect_failed (snd (connectIPC env path clientID w)) = false.
Proof.
  intros Hd Hw. rewrite connectIPC_connected by assumption.
  repeat apply conj; reflexivity.
Qed.

(** ** JSON bodies as text *)

Lemma append_cons (c : ascii) (a b : string) :
  String c a ++ b = String c (a ++ b).
Proof. reflexivity. Qed.

Lemma append_assoc (a b c : string) : (a ++ b) ++ c = a ++ (b ++ c).
Proof.
  induction a as [|x a IH]; [reflexivity|].
  rewrite !append_cons, IH. reflexivity.
Qed.

(** The string encoder copies a text of plain bytes as it is. *)
Lemma quote_from_plain (s : string) :
  Str.all plain_char s = true -> Json.quote_from 0 true s = s.
Proof.
  induction s as [|c r IH]; [reflexivity|].
  cbn [Str.all]. intros [Hc Hr]%andb_true_iff.
  unfold plain_char in Hc. apply andb_true_iff in Hc as [Hascii Hesc].
  apply String.eqb_eq in Hesc.
  cbn [Json.quote_from]. rewrite Hascii, Hesc, (IH Hr). reflexivity.
Qed.

Lemma uint_plain (d : Decimal.uint) :
  Str.all plain_char (NilEmpty.string_of_uint d) = true.
Proof.
  induction d; cbn [NilEmpty.string_of_uint Str.all]; try rewrite IHd; reflexivity.
Qed.

Lemma itoa_plain (n : Z) : Str.all plain_char (itoa n) = true.
Proof.
  unfold itoa, NilZero.string_of_int, NilZero.string_of_uint.
  destruct (Z.to_int n) as [d|d].
  - destruct d; try reflexivity; apply uint_plain.
  - cbn [Str.all]. destruct d; try reflexivity; apply uint_plain.
Qed.

(** A number goes between the quotes digit for digit. *)
Lemma quote_itoa (n : Z) : Json.quote (itoa n) = quoted (itoa n).
Proof.
  unfold Json.quote, quoted. rewrite quote_from_plain by apply itoa_plain.
  reflexivity.
Qed.

(** The text [setActivity] marshals for Balatro under process 4321. *)
Lemma balatro_command_body_marshal (osRelease : string) (now : Z) :
  marshal_DiscordRpcPayload (activityPayload "Balatro" 4321 osRelease now)
  = balatro_command_body (itoa now) (Json.quote ("On " ++ osRelease)).
Proof.
  unfold marshal_DiscordRpcPayload, activityPayload, marshal_ActivityArgs,
    marshal_Activity, marshal_ActivityAssets.
  change (nonempty "Balatro") with true. cbv iota.
  cbn [Cmd Nonce Args Pid Args_Activity Details State Assets LargeImage LargeText].
  rewrite quote_itoa.
  generalize (itoa now) as nonce.
  generalize (Json.quote ("On " ++ osRelease)) as state.
  intros state nonce.
  change (itoa 4321) with "4321".
  change (Json.quote "SET_ACTIVITY") with (quoted "SET_ACTIVITY").
  change (Json.quote ("Playing " ++ "Balatro")) with (quoted "Playing Balatro").
  change (Json.quote "default") with (quoted "default").
  change (Json.quote "Balatro") with (quoted "Balatro").
  unfold balatro_command_body, quoted, Json.key.
  rewrite !append_assoc. reflexivity.
Qed.

Section LoopProperties.

Variable unicode_ToLower : string -> string.
Variable nameToID : gmap string string.
Variable osRelease : string.
Variable uid : Z.

Local Abbreviation resolve := (resolveClientID unicode_ToLower nameToID).
Local Abbreviation tick' := (tick unicode_ToLower nameToID osRelease uid).
Local Abbreviation run' := (run unicode_ToLower nameToID osRelease uid).

(** A tick without a game closes the connection, if there is one. *)
Lemma tick_no_game (env : TickEnv) (s : Session) (w : World) (pid : Z) :
  scan env = ("", pid) ->
  tick' env s w
  = match ipcConn s with
    | Some conn =>
        ({| socketPath := socketPath s; currentClientID := ""; ipcConn := None |},
         {| open_conns := List.filter (fun c => negb (Nat.eqb c conn)) (open_conns w);
            next_conn := next_conn w |},
         [EvClose conn])
    | None => (s, w, [])
    end.
Proof.
  intros Hs. unfold tick. rewrite Hs. cbn.
  destruct (ipcConn s); reflexivity.
Qed.

(** A tick with the game the session is connected for sends one activity
    frame. *)
Lemma tick_same_game (env : TickEnv) (s : Session) (w : World)
    (gameName : string) (pid : Z) (conn : Conn) :
  scan env = (gameName, pid) ->
  nonempty gameName = true ->
  ipcConn s = Some conn ->
  currentClientID s = resolve gameName ->
  tick' env s w
  = (s, w,
     [EvWrite conn (activityFrame gameName pid osRelease (clock env))
              (activity_write_ok env)]).
Proof.
  intros Hs Hg Hc Hid. destruct s as [path cid ic]. cbn in Hc, Hid. subst ic cid.
  unfold tick. rewrite Hs, Hg.
  unfold disconnectIfSwitched, connectIfDisconnected, setActivity. io_unfold.
  cbn. rewrite String.eqb_refl. reflexivity.
Qed.

(** A tick with a game, no connection, and a connect that succeeds. *)
Lemma tick_connect (env : TickEnv) (s : Session) (w : World)
    (gameName : string) (pid : Z) :
  scan env = (gameName, pid) ->
  nonempty gameName = true ->
  ipcConn s = None ->
  nonempty (pathAfterProbe uid env s) = true ->
  dial_ok env = true ->
  handshake_write_ok env = true ->
  tick' env s w
  = ({| socketPath := pathAfterProbe uid env s;
        currentClientID := resolve gameName;
        ipcConn := Some (next_conn w) |},
     {| open_conns := next_conn w :: open_conns w; next_conn := S (next_conn w) |},
     [EvDial (pathAfterProbe uid env s) (Some (next_conn w));
      EvWrite (next_conn w) (handshakeFrame (resolve gameName)) true;
      EvResponse (next_conn w) (fst (readIpcResponse (peer_reply env)));
      EvWrite (next_conn w) (activityFrame gameName pid osRelease (clock env))
              (activity_write_ok env)]).
Proof.
  intros Hs Hg Hc Hp Hd Hw. unfold tick. rewrite Hs, Hg. cbn [negb].
  unfold bind at 1. unfold disconnectIfSwitched. rewrite Hc. unfold ret at 1.
  unfold bind at 1. unfold connectIfDisconnected. rewrite Hc.
  fold (pathAfterProbe uid env s). rewrite Hp.
  unfold bind at 1. rewrite connectIPC_connected by assumption.
  reflexivity.
Qed.

Lemma pathAfterProbe_cached (env : TickEnv) (s : Session) :
  nonempty (socketPath s) = true -> pathAfterProbe uid env s = socketPath s.
Proof.
  intros H. unfold pathAfterProbe. rewrite (eqb_empty_false _ H). reflexivity.
Qed.

(** All the ways through one tick. *)
Ltac tick_cases env s :=
  let g := fresh "gameName" in
  let pid := fresh "pid" in
  let Hscan := fresh "Hscan" in
  destruct s as [path0 cid0 [conn0|]];
  destruct (scan env) as [g pid] eqn:Hscan;
  unfold tick, disconnectIfSwitched, connectIfDisconnected, connectIPC,
    setActivity, pathAfterProbe;
  io_unfold; rewrite ?Hscan;
  fold (activityFrame g pid osRelease (clock env));
  fold (handshakeFrame (resolve g));
  repeat (cbn -[nonempty String.eqb count connect_failed];
          rewrite ?Nat.eqb_refl;
          cbn -[nonempty String.eqb count connect_failed];
          match goal with
          | |- context [if ?b then _ else _] => destruct b eqn:?
          end).

(** The part of the session invariant the loop keeps: the world has
    exactly the handle the session holds open, so at most one. *)
Lemma tick_one_live_handle (env : TickEnv) (s : Session) (w : World) :
  open_conns w = live s ->
  open_conns (snd (fst (tick' env s w))) = live (fst (fst (tick' env s w))).
Proof.
  intros Hopen. destruct w as [open next].
  unfold live in *. tick_cases env s; cbn in Hopen; subst open; cbn;
    rewrite ?Nat.eqb_refl; reflexivity.
Qed.

(** X27. Over any run of ticks that starts with the world holding the
    handle of the session and no other, the world ends holding the handle
    of the session and no other: at most one connection is open. *)
Lemma run_one_live_handle (envs : list TickEnv) (s : Session) (w : World) :
  open_conns w = live s ->
  open_conns (snd (run' envs s w)) = live (snd (fst (run' envs s w))).
Proof.
  revert s w. induction envs as [|env rest IH]; intros s w Hopen; [exact Hopen|].
  cbn [run].
  pose proof (tick_one_live_handle env s w Hopen) as Htick.
  destruct (tick' env s w) as [[s1 w1] ev]. cbn [fst snd] in Htick.
  specialize (IH s1 w1 Htick).
  destruct (run' rest s1 w1) as [[evs s2] w2]. exact IH.
Qed.

(** The other part that the loop keeps: a session that holds a
    connection has the identifier it connected with, which is not empty
    when no catalog entry is. *)
Lemma tick_connected_has_id (env : TickEnv) (s : Session) (w : World) :
  (forall k, nameToID !! k <> Some "") ->
  (ipcConn s <> None -> currentClientID s <> "") ->
  ipcConn (fst (fst (tick' env s w))) <> None ->
  currentClientID (fst (fst (tick' env s w))) <> "".
Proof.
  intros Hcat.
  assert (Hres : forall g, resolve g <> "").
  { intros g. unfold resolveClientID.
    destruct (nameToID !! normalizeGameName unicode_ToLower g) eqn:Hk.
    - intros ->. apply (Hcat _ Hk).
    - discriminate. }
  tick_cases env s; cbn; intros Hs Hconn;
    try (exfalso; apply Hconn; reflexivity);
    try (apply Hs; discriminate);
    try apply Hres.
Qed.

(** C7, as the code has it.  In every tick whose events show a failed
    connect (a dial that gives no connection, or a handshake frame whose
    write fails) the session ends without a connection; a session that
    entered the tick without a connection has [currentClientID] as it
    was; the socket path is the one the session had, or the one probed in
    this tick when it had none; the tick dialled once and wrote no
    activity frame.  A session that entered the tick disconnected and
    with a socket path is unchanged, and no handle is left open. *)
Theorem failed_connect_tick (env : TickEnv) (s : Session) (w : World) :
  connect_failed (snd (tick' env s w)) = true ->
  ipcConn (fst (fst (tick' env s w))) = None
  /\ (ipcConn s = None ->
      currentClientID (fst (fst (tick' env s w))) = currentClientID s)
  /\ socketPath (fst (fst (tick' env s w))) = pathAfterProbe uid env s
  /\ count is_dial (snd (tick' env s w)) = 1%nat
  /\ count (is_frame 1) (snd (tick' env s w)) = 0%nat
  /\ (ipcConn s = None -> socketPath s <> "" -> fst (fst (tick' env s w)) = s)
  /\ (open_conns w = live s -> open_conns (snd (fst (tick' env s w))) = []).
Proof.
  destruct w as [open next]. unfold live.
  tick_cases env s; unfold count, connect_failed;
    cbn [existsb is_failed_connect List.filter is_dial orb];
    autorewrite with frames; cbn -[nonempty String.eqb];
    rewrite ?andb_false_r; cbn -[nonempty String.eqb];
    intros Hfail; try discriminate Hfail;
    repeat apply conj; try reflexivity.
  all: first
    [ intros Hconn; discriminate Hconn
    | intros _; reflexivity
    | intros ->; cbn; rewrite ?Nat.eqb_refl; reflexivity
    | intros Hconn Hpath;
      first
        [ discriminate Hconn
        | reflexivity
        | exfalso; apply Hpath;
          match goal with
          | H : String.eqb _ EmptyString = true |- _ =>
              apply String.eqb_eq in H; exact H
          end ] ].
Qed.

(** C2. Over ticks that detect [A], [A], no game, [B], from a
    disconnected session, with a socket path at hand and every dial and
    handshake write succeeding: tick 1 dials and connects as [A] and sends
    an activity frame; tick 2 only sends an activity frame on the same
    connection; tick 3 only closes the connection; tick 4 dials again and
    connects as [B]. *)
Theorem ticks_A_A_none_B (A B : string) (pid1 pid2 pid3 pid4 : Z)
    (e1 e2 e3 e4 : TickEnv) (s0 : Session) (w0 : World) :
  A <> "" -> B <> "" ->
  scan e1 = (A, pid1) -> scan e2 = (A, pid2) ->
  scan e3 = ("", pid3) -> scan e4 = (B, pid4) ->
  ipcConn s0 = None ->
  pathAfterProbe uid e1 s0 <> "" ->
  dial_ok e1 = true -> handshake_write_ok e1 = true ->
  dial_ok e4 = true -> handshake_write_ok e4 = true ->
  let path := pathAfterProbe uid e1 s0 in
  let c1 := next_conn w0 in
  let c4 := S (next_conn w0) in
  let evs := fst (fst (run' [e1; e2; e3; e4] s0 w0)) in
  evs = [ [ EvDial path (Some c1);
            EvWrite c1 (handshakeFrame (resolve A)) true;
            EvResponse c1 (fst (readIpcResponse (peer_reply e1)));
            EvWrite c1 (activityFrame A pid1 osRelease (clock e1))
                    (activity_write_ok e1) ];
          [ EvWrite c1 (activityFrame A pid2 osRelease (clock e2))
                    (activity_write_ok e2) ];
          [ EvClose c1 ];
          [ EvDial path (Some c4);
            EvWrite c4 (handshakeFrame (resolve B)) true;
            EvResponse c4 (fst (readIpcResponse (peer_reply e4)));
            EvWrite c4 (activityFrame B pid4 osRelease (clock e4))
                    (activity_write_ok e4) ] ]
  /\ List.map (count is_dial) evs = [1; 0; 0; 1]%nat
  /\ List.map (count is_close) evs = [0; 0; 1; 0]%nat
  /\ List.map (count (is_frame 0)) evs = [1; 0; 0; 1]%nat
  /\ List.map (count (is_frame 1)) evs = [1; 1; 0; 1]%nat
  /\ snd (fst (run' [e1; e2; e3; e4] s0 w0))
     = {| socketPath := path; currentClientID := resolve B; ipcConn := Some c4 |}.
Proof.
  intros HA%nonempty_true HB%nonempty_true H1 H2 H3 H4 Hc Hp%nonempty_true
    Hd1 Hw1 Hd4 Hw4.
  cbv zeta. cbn [run].
  rewrite (tick_connect e1 s0 w0 A pid1) by assumption. cbv beta iota.
  rewrite (tick_same_game e2 _ _ A pid2 (next_conn w0))
    by (assumption || reflexivity).
  cbv beta iota.
  rewrite (tick_no_game e3 _ _ pid3) by assumption.
  cbn [ipcConn socketPath]. cbv beta iota.
  assert (Hp4 : pathAfterProbe uid e4
                  {| socketPath := pathAfterProbe uid e1 s0;
                     currentClientID := "";
                     ipcConn := None |}
                = pathAfterProbe uid e1 s0)
    by (apply pathAfterProbe_cached; exact Hp).
  rewrite (tick_connect e4 _ _ B pid4);
    [ | assumption | assumption | reflexivity
      | rewrite Hp4; exact Hp | assumption | assumption ].
  rewrite Hp4. cbn [fst snd next_conn].
  unfold count. cbn [List.map List.filter is_dial is_close].
  autorewrite with frames. cbn.
  repeat apply conj; reflexivity.
Qed.

(** C6. With [balatro] in the catalog under 1209665818464358430 and the
    scanner reporting [("Balatro", 4321)], a tick from a disconnected
    session that reaches the peer dials, writes a handshake frame whose
    body is [{"v":1,"client_id":"1209665818464358430"}], reads the reply,
    and then writes a command frame whose body is the text
    [{"cmd":"SET_ACTIVITY","nonce":"<clock>","args":{"pid":4321,"activity":{"details":"Playing Balatro","state":<state>,"assets":{"large_image":"default","large_text":"Balatro"}}}}],
    with the clock in decimal and the state line [On <osRelease>] as a
    JSON string. *)
Theorem balatro_tick (env : TickEnv) (s : Session) (w : World) :
  nameToID !! "balatro" = Some "1209665818464358430" ->
  scan env = ("Balatro", 4321) ->
  ipcConn s = None ->
  pathAfterProbe uid env s <> "" ->
  dial_ok env = true ->
  handshake_write_ok env = true ->
  snd (tick' env s w)
  = [ EvDial (pathAfterProbe uid env s) (Some (next_conn w));
      EvWrite (next_conn w)
        (encodeFrame 0 (list_byte_of_string balatro_handshake_body)) true;
      EvResponse (next_conn w) (fst (readIpcResponse (peer_reply env)));
      EvWrite (next_conn w)
        (encodeFrame 1
           (list_byte_of_string
              (balatro_command_body (itoa (clock env))
                                    (Json.quote ("On " ++ osRelease)))))
        (activity_write_ok env) ].
Proof.
  intros Hcat Hscan Hc Hp%nonempty_true Hd Hw.
  rewrite (tick_connect env s w "Balatro" 4321) by (assumption || reflexivity).
  assert (Hid : resolve "Balatro" = "1209665818464358430").
  { unfold resolveClientID.
    change (normalizeGameName unicode_ToLower "Balatro") with "balatro".
    rewrite Hcat. reflexivity. }
  rewrite Hid. unfold activityFrame.
  rewrite balatro_command_body_marshal. reflexivity.
Qed.

End LoopProperties.

(** ** The properties at concrete inputs *)

Lemma resolveClientID_catalog_witness :
  resolveClientID (fun s => s)
    (populateMap (fun s => s) ([] ++ balatro_app :: [])%list ∅) "BALATRO!"
  = "1209665818464358430"
  /\ resolveClientID (fun s => s) balatro_catalog "RimWorld" = "000000000000000000".
Proof.
  pose proof (resolveClientID_catalog (fun s => s) ∅ "BALATRO!")
    as (_ & _ & Hstored & _).
  pose proof (resolveClientID_catalog (fun s => s) balatro_catalog "RimWorld")
    as (_ & Hnone & _).
  split.
  - apply (Hstored [] balatro_app []); [reflexivity | constructor].
  - apply Hnone. vm_compute. reflexivity.
Defined.

Lemma scanProcesses_never_ignored_witness :
  ("Balatro" = "" /\ 812 = 0)
  \/ ("Balatro" <> "" /\ is_ignored defaultIgnoredGames "Balatro" = false
      /\ defaultIgnoredGames !! "Balatro" <> Some true).
Proof.
  apply (scanProcesses_never_ignored defaultIgnoredGames
           (Some [entry_self; entry_812]) "Balatro" 812).
  vm_compute. reflexivity.
Defined.

Lemma scanProcesses_numeric_only_witness :
  scanProcesses defaultIgnoredGames (Some ([] ++ entry_self :: [entry_812])%list)
  = scanProcesses defaultIgnoredGames (Some ([] ++ [entry_812])%list)
  /\ exists entry, In entry [entry_self; entry_812]
       /\ entry_is_dir entry = true
       /\ is_numeric (entry_name entry) = true
       /\ 812 = Sscanf_d (entry_name entry).
Proof.
  pose proof (scanProcesses_numeric_only defaultIgnoredGames) as [Hskip Hfrom].
  split.
  - apply Hskip; reflexivity.
  - apply (Hfrom [entry_self; entry_812] "Balatro" 812);
      [reflexivity | vm_compute; reflexivity | discriminate].
Defined.

Lemma connectIPC_ignores_response_witness :
  fst (readIpcResponse (peer_reply env_balatro)) = HeaderError
  /\ fst (fst (connectIPC env_balatro "/run/user/1000/discord-ipc-0"
                         "1209665818464358430" emptyWorld))
     = Some 0%nat.
Proof.
  split; [reflexivity|].
  apply (connectIPC_ignores_response env_balatro
           "/run/user/1000/discord-ipc-0" "1209665818464358430" emptyWorld);
    reflexivity.
Defined.

Lemma ticks_A_A_none_B_witness :
  List.map (count is_dial)
    (fst (fst (run (fun s => s) balatro_catalog "Fedora Linux 43" 1000
                   [env_balatro; env_balatro; env_no_game; env_rimworld]
                   session_no_socket emptyWorld)))
  = [1; 0; 0; 1]%nat.
Proof.
  pose proof (ticks_A_A_none_B (fun s => s) balatro_catalog "Fedora Linux 43" 1000
                "Balatro" "RimWorld" 4321 4321 0 5150
                env_balatro env_balatro env_no_game env_rimworld
                session_no_socket emptyWorld) as H.
  cbv zeta in H.
  destruct H as (_ & Hdial & _);
    [ discriminate | discriminate | reflexivity | reflexivity | reflexivity
    | reflexivity | reflexivity | vm_compute; discriminate
    | reflexivity | reflexivity | reflexivity | reflexivity | ].
  exact Hdial.
Defined.

Lemma balatro_tick_witness :
  snd (tick (fun s => s) balatro_catalog "Fedora Linux 43" 1000
            env_balatro session_no_socket emptyWorld)
  = [ EvDial "/run/user/1000/discord-ipc-0" (Some 0%nat);
      EvWrite 0%nat (encodeFrame 0 (list_byte_of_string balatro_handshake_body)) true;
      EvResponse 0%nat HeaderError;
      EvWrite 0%nat
        (encodeFrame 1
           (list_byte_of_string
              (balatro_command_body "1700000000000000000"
                                    (quoted "On Fedora Linux 43"))))
        true ].
Proof.
  rewrite (balatro_tick (fun s => s) balatro_catalog "Fedora Linux 43" 1000
             env_balatro session_no_socket emptyWorld);
    [ reflexivity | vm_compute; reflexivity | reflexivity | reflexivity
    | vm_compute; discriminate | reflexivity | reflexivity ].
Defined.

Lemma failed_connect_tick_witness :
  ipcConn (fst (fst (tick (fun s => s) balatro_catalog "Fedora Linux 43" 1000
                          env_rimworld_refused session_idle emptyWorld)))
  = None
  /\ currentClientID
       (fst (fst (tick (fun s => s) balatro_catalog "Fedora Linux 43" 1000
                       env_rimworld_refused session_idle emptyWorld)))
     = currentClientID session_idle
  /\ count is_dial
       (snd (tick (fun s => s) balatro_catalog "Fedora Linux 43" 1000
                  env_rimworld_refused session_idle emptyWorld))
     = 1%nat
  /\ count (is_frame 1)
       (snd (tick (fun s => s) balatro_catalog "Fedora Linux 43" 1000
                  env_rimworld_refused session_idle emptyWorld))
     = 0%nat
  /\ fst (fst (tick (fun s => s) balatro_catalog "Fedora Linux 43" 1000
                    env_rimworld_refused session_idle emptyWorld))
     = session_idle.
Proof.
  pose proof (failed_connect_tick (fun s => s) balatro_catalog "Fedora Linux 43" 1000
                env_rimworld_refused session_idle emptyWorld) as H.
  destruct H as (Hconn & Hid & _ & Hdial & Hact & Hsame & _);
    [vm_compute; reflexivity|].
  refine (conj Hconn (conj (Hid _) (conj Hdial (conj Hact (Hsame _ _)))));
    [reflexivity | reflexivity | discriminate].
Defined.

(** Counterexample to C7 as worded: a session that is disconnected and
    has no socket path yet probes for one in the tick, and keeps the path
    it found when the connect then fails.  The session after the tick is
    not the session before it. *)
Lemma failed_connect_keeps_probed_path :
  connect_failed
    (snd (tick (fun s => s) balatro_catalog "Fedora Linux 43" 1000
               env_rimworld_refused session_no_socket emptyWorld)) = true
  /\ ipcConn session_no_socket = None
  /\ fst (fst (tick (fun s => s) balatro_catalog "Fedora Linux 43" 1000
                    env_rimworld_refused session_no_socket emptyWorld))
     = {| socketPath := "/run/user/1000/discord-ipc-0";
          currentClientID := "";
          ipcConn := None |}
  /\ fst (fst (tick (fun s => s) balatro_catalog "Fedora Linux 43" 1000
                    env_rimworld_refused session_no_socket emptyWorld))
     <> session_no_socket.
Proof.
  repeat apply conj; try (vm_compute; reflexivity).
  vm_compute. discriminate.
Qed.

(** C1: the invariant breaks on a game switch whose connect fails.  After
    a tick that connects for Balatro and a tick that finds another game
    while the peer refuses the dial, the session holds no connection and
    no handle is open, but [currentClientID] still has Balatro's
    identifier: the switch closes the connection without clearing the
    identifier, which the no-game branch does clear. *)
Theorem stale_client_id_after_failed_switch :
  let '(_, s, w) :=
    run (fun s => s) balatro_catalog "Fedora Linux 43" 1000
        [env_balatro; env_rimworld_refused]
        (initialSession 1000 canonical_socket_only) emptyWorld in
  ipcConn s = None
  /\ open_conns w = []
  /\ currentClientID s = "1209665818464358430"
  /\ currentClientID s <> "".
Proof.
  vm_compute. repeat apply conj; try reflexivity. discriminate.
Qed.

(** The no-game branch on the same session: connection and identifier
    go together. *)
Example no_game_clears_client_id :
  let '(_, s, w) :=
    run (fun s => s) balatro_catalog "Fedora Linux 43" 1000
        [env_balatro; env_no_game]
        (initialSession 1000 canonical_socket_only) emptyWorld in
  ipcConn s = None /\ open_conns w = [] /\ currentClientID s = "".
Proof. vm_compute. repeat apply conj; reflexivity. Qed.

(** The two paths of the specification's extraction example. *)
Example extractSteamGameName_examples :
  extractSteamGameName "/a/steamapps/common/Balatro/balatro.exe" = "Balatro"
  /\ extractSteamGameName "/no/such/path" = "".
Proof. split; reflexivity. Qed.

(** * Further properties *)

(** ** Further properties: names and catalog *)

Lemma str_all_app (p : ascii -> bool) (a b : string) :
  Str.all p (a ++ b) = Str.all p a && Str.all p b.
Proof.
  induction a as [|c a IH]; [reflexivity|]; rewrite append_cons; cbn [Str.all].
  rewrite IH. apply andb_assoc.
Qed.

Lemma str_map_app (f : ascii -> ascii) (a b : string) :
  Str.map f (a ++ b) = Str.map f a ++ Str.map f b.
Proof.
  induction a as [|c a IH]; [reflexivity|]; rewrite append_cons; cbn [Str.map].
  rewrite IH. reflexivity.
Qed.

Lemma str_filter_app (p : ascii -> bool) (a b : string) :
  Str.filter p (a ++ b) = Str.filter p a ++ Str.filter p b.
Proof.
  induction a as [|c a IH]; [reflexivity|]; rewrite append_cons; cbn [Str.filter].
  rewrite IH. destruct (p c); reflexivity.
Qed.

Lemma lower_char_is_ascii (c : ascii) :
  Str.is_ascii_char c = true -> Str.is_ascii_char (Str.lower_char c) = true.
Proof.
  destruct c as [[] [] [] [] [] [] [] []]; intros H; solve [reflexivity | discriminate H].
Qed.

Lemma lower_char_idempotent (c : ascii) :
  Str.lower_char (Str.lower_char c) = Str.lower_char c.
Proof.
  destruct c as [[] [] [] [] [] [] [] []]; reflexivity.
Qed.

Section NamesAndCatalog.

Variable unicode_ToLower : string -> string.

(** On an ASCII string [normalizeGameName] lower-cases each byte and
    keeps the bytes of [[a-z0-9]]. *)
Lemma normalize_ascii (s : string) :
  Str.all Str.is_ascii_char s = true ->
  normalizeGameName unicode_ToLower s = Str.filter az09 (Str.map Str.lower_char s).
Proof.
  intros H. unfold normalizeGameName, strip_non_az09, ToLower. rewrite H.
  reflexivity.
Qed.

(** X2. On ASCII names the normal form ignores letter case and every
    byte outside [[A-Za-z0-9]]: putting such a byte anywhere into a name,
    or changing a letter to lower case, leaves the normal form as it
    is. *)
Theorem normalizeGameName_ascii_insensitive (a b : string) (c : ascii) :
  Str.all Str.is_ascii_char a = true ->
  Str.all Str.is_ascii_char b = true ->
  Str.is_ascii_char c = true ->
  normalizeGameName unicode_ToLower (a ++ String c b)
  = normalizeGameName unicode_ToLower (a ++ String (Str.lower_char c) b)
  /\ (az09 (Str.lower_char c) = false ->
      normalizeGameName unicode_ToLower (a ++ String c b)
      = normalizeGameName unicode_ToLower (a ++ b)).
Proof.
  intros Ha Hb Hc.
  assert (Hacb : Str.all Str.is_ascii_char (a ++ String c b) = true).
  { rewrite str_all_app. cbn. rewrite Ha, Hb, Hc. reflexivity. }
  assert (Halb : Str.all Str.is_ascii_char (a ++ String (Str.lower_char c) b) = true).
  { rewrite str_all_app. cbn. rewrite Ha, Hb, (lower_char_is_ascii _ Hc). reflexivity. }
  assert (Hab : Str.all Str.is_ascii_char (a ++ b) = true).
  { rewrite str_all_app, Ha, Hb. reflexivity. }
  rewrite !normalize_ascii by assumption.
  rewrite !str_map_app, !str_filter_app. cbn [Str.map Str.filter].
  rewrite lower_char_idempotent. split; [reflexivity|].
  intros ->. reflexivity.
Qed.

(** Every entry of a catalog that [populateMap] has written to was there
    before or comes from one of the apps. *)
Lemma populateMap_lookup_inv (apps : list DetectableApp) (m : gmap string string)
    (k id : string) :
  populateMap unicode_ToLower apps m !! k = Some id ->
  m !! k = Some id
  \/ exists app, In app apps
       /\ k = normalizeGameName unicode_ToLower (Name app) /\ id = ID app.
Proof.
  revert m. induction apps as [|a apps IH]; intros m; [left; assumption|].
  change (populateMap unicode_ToLower (a :: apps) m)
    with (populateMap unicode_ToLower apps
            (<[normalizeGameName unicode_ToLower (Name a) := ID a]> m)).
  intros [Hm|(app & Hin & Hk & Hid)]%IH.
  - destruct (decide (normalizeGameName unicode_ToLower (Name a) = k)) as [<-|Hne].
    + rewrite lookup_insert_eq in Hm. injection Hm as <-.
      right. exists a. cbn. auto.
    + rewrite lookup_insert_ne in Hm by exact Hne. left. exact Hm.
  - right. exists app. cbn. auto.
Qed.

(** X1. A catalog built from nothing has no entry of its own making:
    each key is the normalised name of one of the apps, the value is that
    app's identifier, and the key has bytes of [[a-z0-9]] only. *)
Theorem populateMap_entries (apps : list DetectableApp) (k id : string) :
  populateMap unicode_ToLower apps ∅ !! k = Some id ->
  (exists app, In app apps
     /\ k = normalizeGameName unicode_ToLower (Name app) /\ id = ID app)
  /\ Str.all az09 k = true.
Proof.
  intros [Hm|(app & Hin & Hk & Hid)]%populateMap_lookup_inv.
  - rewrite lookup_empty in Hm. discriminate.
  - split; [exists app; auto|]. subst k. apply all_filter.
Qed.

Lemma populateMap_size (apps : list DetectableApp) (m : gmap string string) :
  (size (populateMap unicode_ToLower apps m) <= size m + length apps)%nat.
Proof.
  revert m. induction apps as [|a apps IH]; intros m; [cbn; lia|].
  change (populateMap unicode_ToLower (a :: apps) m)
    with (populateMap unicode_ToLower apps
            (<[normalizeGameName unicode_ToLower (Name a) := ID a]> m)).
  specialize (IH (<[normalizeGameName unicode_ToLower (Name a) := ID a]> m)).
  rewrite map_size_insert in IH.
  destruct (m !! normalizeGameName unicode_ToLower (Name a)); cbn in *; lia.
Qed.

(** A key that is in the catalog stays in it. *)
Lemma populateMap_keeps_key (apps : list DetectableApp) (m : gmap string string)
    (k : string) :
  is_Some (m !! k) -> is_Some (populateMap unicode_ToLower apps m !! k).
Proof.
  revert m. induction apps as [|a apps IH]; intros m Hk; [exact Hk|].
  change (populateMap unicode_ToLower (a :: apps) m)
    with (populateMap unicode_ToLower apps
            (<[normalizeGameName unicode_ToLower (Name a) := ID a]> m)).
  apply IH.
  destruct (decide (normalizeGameName unicode_ToLower (Name a) = k)) as [<-|Hne].
  - rewrite lookup_insert_eq. eauto.
  - rewrite lookup_insert_ne by exact Hne. exact Hk.
Qed.

(** X3. The catalog never has more entries than there are apps, and has
    fewer as soon as two apps share a normalised name. *)
Theorem populateMap_size_bound (apps : list DetectableApp) :
  (size (populateMap unicode_ToLower apps ∅) <= length apps)%nat
  /\ (forall pre a mid b post,
        apps = (pre ++ a :: mid ++ b :: post)%list ->
        normalizeGameName unicode_ToLower (Name a)
        = normalizeGameName unicode_ToLower (Name b) ->
        (size (populateMap unicode_ToLower apps ∅) < length apps)%nat).
Proof.
  split.
  - pose proof (populateMap_size apps ∅) as H.
    rewrite map_size_empty in H. exact H.
  - intros pre a mid b post -> Hkey.
    rewrite populateMap_app.
    change (populateMap unicode_ToLower (a :: mid ++ b :: post) ?m)
      with (populateMap unicode_ToLower (mid ++ b :: post)%list
              (<[normalizeGameName unicode_ToLower (Name a) := ID a]> m)).
    rewrite populateMap_app.
    set (m0 := populateMap unicode_ToLower pre ∅).
    set (m1 := populateMap unicode_ToLower mid _).
    change (populateMap unicode_ToLower (b :: post) m1)
      with (populateMap unicode_ToLower post
              (<[normalizeGameName unicode_ToLower (Name b) := ID b]> m1)).
    pose proof (populateMap_size post
                  (<[normalizeGameName unicode_ToLower (Name b) := ID b]> m1)) as Hpost.
    assert (Hin : is_Some (m1 !! normalizeGameName unicode_ToLower (Name b))).
    { subst m1. rewrite <- Hkey. apply populateMap_keeps_key.
      rewrite lookup_insert_eq. eauto. }
    destruct Hin as [v Hv].
    rewrite map_size_insert, Hv in Hpost. cbn in Hpost.
    pose proof (populateMap_size mid
                  (<[normalizeGameName unicode_ToLower (Name a) := ID a]> m0)) as Hmid.
    fold m1 in Hmid.
    pose proof (populateMap_size pre ∅) as Hpre.
    rewrite map_size_empty in Hpre. fold m0 in Hpre.
    rewrite map_size_insert in Hmid.
    rewrite !length_app. cbn [length]. rewrite length_app. cbn [length].
    destruct (m0 !! normalizeGameName unicode_ToLower (Name a)); cbn in Hmid; lia.
Qed.

End NamesAndCatalog.

(** ** Further properties: path extraction *)

Lemma has_prefix_split (key s : string) :
  Str.has_prefix key s = true -> s = key ++ Str.drop (String.length key) s.
Proof.
  revert s. induction key as [|a key IH]; intros s; [reflexivity|].
  destruct s as [|b s]; cbn; [discriminate|].
  destruct (Ascii.eqb_spec a b) as [<-|]; [|discriminate].
  intros H. rewrite append_cons, <- (IH s H). reflexivity.
Qed.

Lemma has_prefix_app (key t : string) : Str.has_prefix key (key ++ t) = true.
Proof.
  induction key as [|a key IH]; [reflexivity|].
  rewrite append_cons. cbn [Str.has_prefix]. rewrite Ascii.eqb_refl. exact IH.
Qed.

Lemma drop_app (key t : string) : Str.drop (String.length key) (key ++ t) = t.
Proof.
  induction key as [|a key IH]; [reflexivity|]. rewrite append_cons. exact IH.
Qed.

(** Whether [key] is a prefix shows in the first [length key] bytes. *)
Lemma has_prefix_long (key a t : string) :
  (String.length key <= String.length a)%nat ->
  Str.has_prefix key (a ++ t) = Str.has_prefix key a.
Proof.
  revert a. induction key as [|x key IH]; intros a Hlen; [reflexivity|].
  destruct a as [|y a]; [cbn in Hlen; lia|].
  rewrite append_cons. cbn. destruct (Ascii.eqb x y); [|reflexivity].
  apply IH. cbn in Hlen. lia.
Qed.

Lemma length_append (a b : string) :
  String.length (a ++ b) = (String.length a + String.length b)%nat.
Proof.
  induction a as [|x a IH]; [reflexivity|]. rewrite append_cons. cbn.
  rewrite IH. reflexivity.
Qed.

Lemma length_drop (n : nat) (s : string) :
  String.length (Str.drop n s) = (String.length s - n)%nat.
Proof.
  revert s. induction n as [|n IH]; intros s; [cbn; lia|].
  destruct s as [|c s]; [reflexivity|]. cbn. apply IH.
Qed.

(** When the first occurrence of [key] in [pre ++ key] is the one at the
    end, it is the first occurrence in [pre ++ key ++ t] too. *)
Lemma after_first_at (key pre t : string) :
  Str.after_first key (pre ++ key) = Some "" ->
  Str.after_first key (pre ++ key ++ t) = Some t.
Proof.
  induction pre as [|c pre IH].
  - intros _. change ("" ++ key ++ t) with (key ++ t).
    destruct (key ++ t) as [|x r] eqn:Hkt; cbn; rewrite <- Hkt;
      rewrite has_prefix_app, drop_app; reflexivity.
  - rewrite !append_cons. cbn.
    destruct (Str.has_prefix key (String c (pre ++ key))) eqn:Hp.
    + intros [= Hd]. apply (f_equal String.length) in Hd.
      rewrite length_drop in Hd. cbn in Hd. rewrite length_append in Hd. lia.
    + intros Hrest.
      rewrite <- append_cons, <- append_assoc, has_prefix_long, append_cons, Hp.
      * apply IH, Hrest.
      * rewrite append_cons. cbn. rewrite length_append. lia.
Qed.

Lemma before_sep_no_sep (sep : ascii) (s : string) :
  Str.all (fun c => negb (Ascii.eqb c sep)) (Str.before_sep sep s) = true.
Proof.
  induction s as [|c s IH]; [reflexivity|]. cbn.
  destruct (Ascii.eqb c sep) eqn:Hc; [reflexivity|]. cbn. rewrite Hc. exact IH.
Qed.

Lemma before_sep_split (sep : ascii) (s : string) :
  exists rest, s = Str.before_sep sep s ++ rest
               /\ (rest = "" \/ exists r, rest = String sep r).
Proof.
  induction s as [|c s (rest & Hs & Hrest)].
  - exists "". auto.
  - cbn. destruct (Ascii.eqb_spec c sep) as [->|Hne].
    + exists (String sep s). eauto.
    + exists rest. rewrite append_cons, <- Hs. auto.
Qed.

Lemma before_sep_app (sep : ascii) (name tail : string) :
  Str.all (fun c => negb (Ascii.eqb c sep)) name = true ->
  tail = "" \/ (exists r, tail = String sep r) ->
  Str.before_sep sep (name ++ tail) = name.
Proof.
  intros Hname Htail. induction name as [|c name IH].
  - destruct Htail as [->|(r & ->)]; [reflexivity|].
    change ("" ++ String sep r) with (String sep r).
    cbn [Str.before_sep]. rewrite Ascii.eqb_refl. reflexivity.
  - cbn in Hname. apply andb_true_iff in Hname as [Hc Hname].
    rewrite append_cons. cbn [Str.before_sep]. apply negb_true_iff in Hc.
    rewrite Hc. rewrite (IH Hname). reflexivity.
Qed.

Lemma has_prefix_refl (key : string) : Str.has_prefix key key = true.
Proof.
  induction key as [|a key IH]; [reflexivity|].
  cbn [Str.has_prefix]. rewrite Ascii.eqb_refl. exact IH.
Qed.

Lemma drop_length (key : string) : Str.drop (String.length key) key = "".
Proof. induction key as [|a key IH]; [reflexivity|]. exact IH. Qed.

Lemma after_first_self (key : string) : Str.after_first key key = Some "".
Proof.
  destruct key as [|a key]; [reflexivity|].
  cbn [Str.after_first]. rewrite has_prefix_refl, drop_length. reflexivity.
Qed.

(** The occurrence [after_first] finds is the first one: the text up to
    its end holds no other. *)
Lemma after_first_Some_first (key s t : string) :
  Str.after_first key s = Some t ->
  exists pre, s = pre ++ key ++ t /\ Str.after_first key (pre ++ key) = Some "".
Proof.
  induction s as [|c s IH].
  - cbn. destruct (Str.has_prefix key "") eqn:Hp; [|discriminate].
    intros [= <-]. exists "". split; [apply has_prefix_split, Hp|].
    apply after_first_self.
  - cbn. destruct (Str.has_prefix key (String c s)) eqn:Hp.
    + intros [= <-]. exists "". split; [apply has_prefix_split, Hp|].
      apply after_first_self.
    + intros (pre & -> & Hfirst)%IH. exists (String c pre).
      split; [reflexivity|].
      rewrite append_cons. cbn [Str.after_first].
      rewrite <- append_cons, <- append_assoc, has_prefix_long, append_cons in Hp.
      * rewrite Hp. exact Hfirst.
      * rewrite append_cons. cbn. rewrite length_append. lia.
Qed.

(** Where [key] occurs, [after_first] finds it or an earlier occurrence. *)
Lemma after_first_found (key pre post : string) :
  exists t, Str.after_first key (pre ++ key ++ post) = Some t
            /\ (String.length post <= String.length t)%nat.
Proof.
  induction pre as [|c pre (t & IH & Hlen)].
  - exists post. split; [|lia]. change ("" ++ key ++ post) with (key ++ post).
    destruct (key ++ post) as [|x r] eqn:Hkt; cbn; rewrite <- Hkt;
      rewrite has_prefix_app, drop_app; reflexivity.
  - rewrite append_cons. cbn [Str.after_first].
    destruct (Str.has_prefix key (String c (pre ++ key ++ post))).
    + eexists. split; [reflexivity|].
      rewrite length_drop. cbn [String.length]. rewrite !length_append. lia.
    + exists t. split; [exact IH | exact Hlen].
Qed.

(** Behind the first occurrence there is none that ends earlier. *)
Lemma first_occurrence (key pre : string) :
  Str.after_first key (pre ++ key) = Some "" ->
  forall pre' post', pre ++ key = pre' ++ key ++ post' -> post' = "".
Proof.
  intros Hfirst pre' post' Heq.
  destruct (after_first_found key pre' post') as (t & Ht & Hlen).
  rewrite <- Heq, Hfirst in Ht. injection Ht as <-.
  destruct post'; [reflexivity | cbn in Hlen; lia].
Qed.

(** X4. What [extractSteamGameName] returns is one path component: it
    has no slash.  A path in which [steamapps/common] does not occur
    gives the empty name, and a name that is returned stands in the path
    right behind the first [steamapps/common] (no occurrence ends before
    that one does), after one slash or none, and ends at the next slash
    or at the end of the path. *)
Theorem extractSteamGameName_sound (fullPath : string) :
  no_slash (extractSteamGameName fullPath) = true
  /\ ((forall pre post, fullPath <> pre ++ "steamapps/common" ++ post) ->
      extractSteamGameName fullPath = "")
  /\ (extractSteamGameName fullPath <> "" ->
      exists pre sep rest,
        fullPath = pre ++ "steamapps/common" ++ sep
                       ++ extractSteamGameName fullPath ++ rest
        /\ (forall pre' post',
              pre ++ "steamapps/common" = pre' ++ "steamapps/common" ++ post' ->
              post' = "")
        /\ (sep = "" \/ sep = "/")
        /\ (rest = "" \/ exists r, rest = String "/" r)).
Proof.
  unfold extractSteamGameName, no_slash.
  destruct (Str.after_first "steamapps/common" fullPath) as [t|] eqn:Hafter.
  - split; [apply before_sep_no_sep|].
    apply after_first_Some_first in Hafter as (pre & -> & Hfirst).
    split; [intros Hnone; exfalso; apply (Hnone pre t); reflexivity|].
    intros Hne. pose proof (first_occurrence _ _ Hfirst) as Hocc.
    destruct t as [|c t].
    + cbn in Hne. contradiction.
    + destruct (Ascii.eqb_spec c "/") as [->|Hc].
      * destruct (before_sep_split "/" t) as (rest & Ht & Hrest).
        exists pre, "/", rest. rewrite Ht at 1. auto.
      * destruct (before_sep_split "/" (String c t)) as (rest & Ht & Hrest).
        exists pre, "", rest. rewrite Ht at 1. auto.
  - split; [reflexivity|]. split; [reflexivity|]. intros Hne. contradiction.
Qed.

(** X5. When the first [steamapps/common] of a path is followed by a
    slash, a folder name without a slash, and then a slash or the end of
    the path, that folder name is returned.  The slash behind
    [steamapps/common] is not needed: a name that follows it directly is
    returned just the same. *)
Theorem extractSteamGameName_complete (pre name tail : string) :
  Str.after_first "steamapps/common" (pre ++ "steamapps/common") = Some "" ->
  no_slash name = true ->
  tail = "" \/ (exists r, tail = String "/" r) ->
  extractSteamGameName (pre ++ "steamapps/common" ++ "/" ++ name ++ tail) = name
  /\ (name <> "" ->
      extractSteamGameName (pre ++ "steamapps/common" ++ name ++ tail) = name).
Proof.
  intros Hfirst Hname Htail. unfold extractSteamGameName. split.
  - rewrite (after_first_at _ pre ("/" ++ name ++ tail) Hfirst).
    change ("/" ++ name ++ tail) with (String "/" (name ++ tail)).
    cbv beta iota. change (Ascii.eqb "/" "/") with true. cbv iota.
    apply before_sep_app; assumption.
  - intros Hne. rewrite (after_first_at _ pre (name ++ tail) Hfirst).
    destruct name as [|c name]; [contradiction|].
    rewrite append_cons. cbn in Hname.
    apply andb_true_iff in Hname as [Hc Hname]. apply negb_true_iff in Hc.
    rewrite Hc. rewrite <- append_cons. apply before_sep_app; [|assumption].
    cbn. rewrite Hc, Hname. reflexivity.
Qed.

Lemma extractSteamGameName_complete_witness :
  extractSteamGameName
    ("/home/u/.steam/" ++ "steamapps/common" ++ "/" ++ "Balatro" ++ "/love")
  = "Balatro".
Proof.
  pose proof (extractSteamGameName_complete "/home/u/.steam/" "Balatro" "/love"
                eq_refl eq_refl (or_intror (ex_intro _ "love" eq_refl))) as [H _].
  exact H.
Defined.

Lemma extractSteamGameName_sound_witness :
  exists pre sep rest,
    "/a/steamapps/common/Balatro/balatro.exe"
    = pre ++ "steamapps/common" ++ sep
          ++ extractSteamGameName "/a/steamapps/common/Balatro/balatro.exe" ++ rest
    /\ (forall pre' post',
          pre ++ "steamapps/common" = pre' ++ "steamapps/common" ++ post' ->
          post' = "")
    /\ (sep = "" \/ sep = "/")
    /\ (rest = "" \/ exists r, rest = String "/" r).
Proof.
  apply (extractSteamGameName_sound "/a/steamapps/common/Balatro/balatro.exe").
  discriminate.
Defined.

(** ** Further properties: process scanner *)

(** The argument loop stops at the first argument that gives a name. *)
Lemma scanArgs_app (ignoredGames : gmap string bool) (l1 l2 : list string) :
  scanArgs ignoredGames (l1 ++ l2)%list
  = if nonempty (scanArgs ignoredGames l1) then scanArgs ignoredGames l1
    else scanArgs ignoredGames l2.
Proof.
  induction l1 as [|arg l1 IH]; [reflexivity|].
  cbn [app scanArgs].
  destruct (String.length arg =? 0)%nat; [exact IH|].
  destruct (nonempty (extractSteamGameName arg)
            && negb (is_ignored ignoredGames (extractSteamGameName arg))) eqn:Hacc;
    [|exact IH].
  apply andb_true_iff in Hacc as [-> _]. reflexivity.
Qed.

Lemma split_cmdline_of (args : list string) :
  Forall (fun a => no_nul a = true) args ->
  Str.split zero (cmdline_of args) = (args ++ [""])%list.
Proof.
  induction 1 as [|arg args Harg _ IH]; [reflexivity|].
  cbn [cmdline_of app]. rewrite <- IH. clear IH.
  induction arg as [|c arg IHarg].
  - change ("" ++ String zero (cmdline_of args))
      with (String zero (cmdline_of args)).
    cbn [Str.split]. rewrite Ascii.eqb_refl. reflexivity.
  - unfold no_nul in Harg. cbn [Str.all] in Harg.
    apply andb_true_iff in Harg as [Hc Harg]. apply negb_true_iff in Hc.
    rewrite append_cons. cbn [Str.split]. rewrite Hc.
    rewrite (IHarg Harg). reflexivity.
Qed.

(** X9. [scanCmdline] on the command line of a process, as [/proc] has
    it, goes through the arguments in order and returns the folder of the
    first one that names a game outside the ignore set; arguments before
    it that name nothing, or an ignored folder, are passed over, and
    arguments behind it play no part. *)
Theorem scanCmdline_first_argument (ignoredGames : gmap string bool)
    (before behind : list string) (arg : string) :
  Forall (fun a => no_nul a = true) (before ++ arg :: behind)%list ->
  Forall (fun a => accepted ignoredGames (extractSteamGameName a) = false) before ->
  accepted ignoredGames (extractSteamGameName arg) = true ->
  scanCmdline ignoredGames (Some (cmdline_of (before ++ arg :: behind)%list))
  = extractSteamGameName arg.
Proof.
  intros Hnul Hbefore Harg. unfold scanCmdline.
  rewrite split_cmdline_of by exact Hnul.
  rewrite <- app_assoc, scanArgs_app.
  assert (Hnone : scanArgs ignoredGames before = "").
  { clear Hnul. induction Hbefore as [|a before Ha _ IH]; [reflexivity|].
    cbn [scanArgs]. destruct (String.length a =? 0)%nat; [exact IH|].
    fold (accepted ignoredGames (extractSteamGameName a)). rewrite Ha. exact IH. }
  rewrite Hnone. change (nonempty "") with false. cbv iota.
  cbn [app scanArgs].
  destruct (String.length arg =? 0)%nat eqn:Hlen.
  - apply Nat.eqb_eq in Hlen. destruct arg; [|discriminate Hlen].
    discriminate Harg.
  - fold (accepted ignoredGames (extractSteamGameName arg)). rewrite Harg.
    reflexivity.
Qed.

Lemma scanCmdline_first_argument_witness :
  scanCmdline defaultIgnoredGames
    (Some (cmdline_of
             (["/usr/bin/env";
               "/home/u/.steam/steamapps/common/SteamLinuxRuntime_sniper/run"]
              ++ "/home/u/.steam/steamapps/common/Balatro/love"
              :: ["--fullscreen"])%list))
  = extractSteamGameName "/home/u/.steam/steamapps/common/Balatro/love".
Proof.
  apply scanCmdline_first_argument.
  - repeat constructor.
  - repeat constructor.
  - vm_compute. reflexivity.
Defined.

(** X6. The scan stops at the first entry that gives a game: the
    entries behind it play no part, not even one whose name is empty.
    When the first part of the table gives nothing, the result is that of
    the rest. *)
Theorem scanProcesses_short_circuit (ignoredGames : gmap string bool)
    (l1 l2 : list ProcEntry) :
  scanProcesses ignoredGames (Some (l1 ++ l2)%list)
  = match scanProcesses ignoredGames (Some l1) with
    | None => None
    | Some (name, pid) =>
        if nonempty name then Some (name, pid)
        else scanProcesses ignoredGames (Some l2)
    end.
Proof.
  unfold scanProcesses.
  induction l1 as [|entry l1 IH]; [reflexivity|].
  cbn [app scanEntries].
  destruct (entry_is_dir entry); cbn [negb]; [|exact IH].
  destruct (entry_name entry) as [|c0 tail]; [reflexivity|].
  destruct (is_digit c0); cbn [negb]; [|exact IH].
  destruct (match proc_exe entry with
            | Some exePath =>
                if nonempty (extractSteamGameName exePath)
                   && negb (is_ignored ignoredGames (extractSteamGameName exePath))
                then Some (extractSteamGameName exePath) else None
            | None => None
            end) as [name|] eqn:Hexe.
  - destruct (proc_exe entry) as [exePath|]; [|discriminate Hexe].
    destruct (nonempty (extractSteamGameName exePath)
              && negb (is_ignored ignoredGames (extractSteamGameName exePath)))
      eqn:Hacc; [|discriminate Hexe].
    injection Hexe as <-. apply andb_true_iff in Hacc as [-> _]. reflexivity.
  - destruct (nonempty (scanCmdline ignoredGames (proc_cmdline entry))
              && negb (is_ignored ignoredGames
                         (scanCmdline ignoredGames (proc_cmdline entry))))
      eqn:Hacc; [|exact IH].
    apply andb_true_iff in Hacc as [-> _]. reflexivity.
Qed.

(** X7. An entry the scan cannot read behaves as if it were not there:
    when both the executable link and the command line of a process fail
    to read (a process that has gone, or that belongs to someone else),
    the scan goes on to the next entry. *)
Theorem scanProcesses_skips_unreadable (ignoredGames : gmap string bool)
    (pre post : list ProcEntry) (entry : ProcEntry) :
  entry_name entry <> "" ->
  proc_exe entry = None ->
  proc_cmdline entry = None ->
  scanProcesses ignoredGames (Some (pre ++ entry :: post)%list)
  = scanProcesses ignoredGames (Some (pre ++ post)%list).
Proof.
  intros Hname Hexe Hcmd. unfold scanProcesses.
  induction pre as [|e pre IH].
  - cbn [app scanEntries]. rewrite Hexe, Hcmd.
    destruct (entry_is_dir entry); cbn [negb]; [|reflexivity].
    destruct (entry_name entry) as [|c0 tail]; [contradiction|].
    destruct (is_digit c0); reflexivity.
  - apply scanEntries_cons_congr, IH.
Qed.

Lemma scanProcesses_skips_unreadable_witness :
  scanProcesses defaultIgnoredGames
    (Some ([entry_self]
           ++ {| entry_name := "311"; entry_is_dir := true;
                 proc_exe := None; proc_cmdline := None |}
           :: [entry_812])%list)
  = scanProcesses defaultIgnoredGames (Some ([entry_self] ++ [entry_812])%list).
Proof.
  apply scanProcesses_skips_unreadable; [discriminate | reflexivity | reflexivity].
Defined.

Lemma leading_digits_pos (d : Decimal.uint) (p : positive) :
  leading_digits (NilEmpty.string_of_uint d) (Z.pos p) = Z.pos (Pos.of_uint_acc d p).
Proof.
  revert p. induction d; intros p; cbn [NilEmpty.string_of_uint Pos.of_uint_acc];
    [reflexivity|..]; cbn [leading_digits];
    match goal with
    | |- context [is_digit ?c] => change (is_digit c) with true
    end; cbv iota;
    match goal with
    | |- leading_digits _ ?acc = Z.pos (Pos.of_uint_acc _ ?q) =>
        replace acc with (Z.pos q) by (cbn; lia)
    end; apply IHd.
Qed.

Lemma leading_digits_uint (d : Decimal.uint) :
  leading_digits (NilEmpty.string_of_uint d) 0 = Z.of_N (Pos.of_uint d).
Proof.
  induction d; cbn [NilEmpty.string_of_uint Pos.of_uint];
    [reflexivity|..]; cbn [leading_digits];
    match goal with
    | |- context [is_digit ?c] => change (is_digit c) with true
    end; cbv iota;
    [ exact IHd | .. ];
    match goal with
    | |- leading_digits _ ?acc = Z.of_N (N.pos (Pos.of_uint_acc _ ?q)) =>
        change acc with (Z.pos q)
    end; apply leading_digits_pos.
Qed.

Lemma itoa_pos_head (p : positive) :
  exists c tail, itoa (Z.pos p) = String c tail /\ is_digit c = true.
Proof.
  unfold itoa. cbn [Z.to_int NilZero.string_of_int].
  pose proof (DecimalPos.Unsigned.of_to p) as Hof.
  unfold NilZero.string_of_uint.
  destruct (Pos.to_uint p) eqn:Hd; [discriminate Hof|..];
    cbn [NilEmpty.string_of_uint]; eexists _, _; split; reflexivity.
Qed.

(** [Sscanf] reads back what [%d] prints. *)
Lemma Sscanf_d_itoa (n : Z) : 0 <= n < 2 ^ 63 -> Sscanf_d (itoa n) = n.
Proof.
  intros Hn. unfold Sscanf_d.
  assert (Hv : leading_digits (itoa n) 0 = n).
  { destruct n as [|p|p]; [reflexivity| |lia].
    unfold itoa. cbn [Z.to_int NilZero.string_of_int].
    pose proof (DecimalPos.Unsigned.of_to p) as Hof.
    unfold NilZero.string_of_uint.
    destruct (Pos.to_uint p) eqn:Hd; [discriminate Hof|..];
      rewrite <- Hd at 1; rewrite leading_digits_uint, Hd, Hof; reflexivity. }
  rewrite Hv. destruct (Z.ltb_spec n (2 ^ 63)); [reflexivity | lia].
Qed.

(** X8. A process directory named by the decimal of its pid is reported
    under that pid.  When the executable link points into a game folder
    outside the ignore set, that folder is the game, whatever the command
    line holds.  When the link points into an ignored folder (a Steam
    runtime or compatibility layer), the game is the one the command line
    names. *)
Theorem scanProcesses_reports_pid (ignoredGames : gmap string bool)
    (entry : ProcEntry) (rest : list ProcEntry) (pid : Z) (exePath : string) :
  0 < pid < 2 ^ 63 ->
  entry_name entry = itoa pid ->
  entry_is_dir entry = true ->
  proc_exe entry = Some exePath ->
  (accepted ignoredGames (extractSteamGameName exePath) = true ->
   scanProcesses ignoredGames (Some (entry :: rest))
   = Some (extractSteamGameName exePath, pid))
  /\ (accepted ignoredGames (extractSteamGameName exePath) = false ->
      accepted ignoredGames (scanCmdline ignoredGames (proc_cmdline entry)) = true ->
      scanProcesses ignoredGames (Some (entry :: rest))
      = Some (scanCmdline ignoredGames (proc_cmdline entry), pid)).
Proof.
  intros Hpid Hname Hdir Hexe. unfold scanProcesses. cbn [scanEntries].
  rewrite Hdir, Hname, Hexe. cbn [negb].
  destruct pid as [|p|p]; [lia| |lia].
  destruct (itoa_pos_head p) as (c & tail & Hitoa & Hc).
  pose proof (Sscanf_d_itoa (Z.pos p) ltac:(lia)) as Hscan.
  rewrite Hitoa in *. rewrite Hc. cbn [negb].
  fold (accepted ignoredGames (extractSteamGameName exePath)).
  fold (accepted ignoredGames (scanCmdline ignoredGames (proc_cmdline entry))).
  split.
  - intros ->. rewrite Hscan. reflexivity.
  - intros -> ->. rewrite Hscan. reflexivity.
Qed.

Lemma scanProcesses_reports_pid_witness :
  scanProcesses defaultIgnoredGames (Some [entry_812])
  = Some (scanCmdline defaultIgnoredGames (proc_cmdline entry_812), 812).
Proof.
  apply (scanProcesses_reports_pid defaultIgnoredGames entry_812 [] 812
           "/home/u/.steam/steamapps/common/SteamLinuxRuntime_sniper/pressure-vessel");
    try reflexivity; try lia; vm_compute; reflexivity.
Defined.

(** ** Further properties: configuration *)

Lemma mergeIgnored_spec (names : list string) (m : gmap string bool) (name : string) :
  is_ignored (mergeIgnored names m) name = true
  <-> is_ignored m name = true \/ In name names.
Proof.
  revert m. induction names as [|n names IH]; intros m.
  - cbn. tauto.
  - change (mergeIgnored (n :: names) m) with (mergeIgnored names (<[n := true]> m)).
    rewrite IH. unfold is_ignored. cbn [In].
    destruct (decide (n = name)) as [->|Hne].
    + rewrite lookup_insert_eq. cbn. tauto.
    + rewrite lookup_insert_ne by exact Hne. tauto.
Qed.

Lemma loadConfig_ignored_iff (file : ConfigFile) (st : Settings) (name : string) :
  is_ignored (ignoredGames (loadConfig file st)) name = true
  <-> is_ignored (ignoredGames st) name = true
      \/ exists cfg, file = ConfigParsed cfg /\ In name (IgnoredGames cfg).
Proof.
  destruct file as [| |cfg]; cbn [loadConfig ignoredGames].
  - split; [auto | intros [H|(cfg & Hf & _)]; [exact H | discriminate Hf]].
  - split; [auto | intros [H|(cfg & Hf & _)]; [exact H | discriminate Hf]].
  - rewrite mergeIgnored_spec. split.
    + intros [H|H]; [left; exact H | right; eauto].
    + intros [H|(cfg' & [= <-] & H)]; [left; exact H | right; exact H].
Qed.

(** X11. [loadConfig] only adds to the ignore set: after it a folder is
    ignored exactly when it was ignored before or the configuration names
    it.  A missing or malformed file adds nothing. *)
Theorem loadConfig_ignored (file : ConfigFile) (st : Settings) (name : string) :
  (is_ignored (ignoredGames st) name = true ->
   is_ignored (ignoredGames (loadConfig file st)) name = true)
  /\ (forall cfg, file = ConfigParsed cfg -> In name (IgnoredGames cfg) ->
      is_ignored (ignoredGames (loadConfig file st)) name = true)
  /\ (is_ignored (ignoredGames (loadConfig file st)) name = true ->
      is_ignored (ignoredGames st) name = true
      \/ exists cfg, file = ConfigParsed cfg /\ In name (IgnoredGames cfg)).
Proof.
  pose proof (loadConfig_ignored_iff file st name) as H.
  repeat split.
  - intros Hst. apply H. left. exact Hst.
  - intros cfg Hfile Hin. apply H. right. eauto.
  - apply H.
Qed.

(** X12. Whatever the configuration file holds, a game the scan detects
    is none of the three Steam runtime folders [main.go] starts with, and
    none of the folders the configuration lists. *)
Theorem configured_folders_never_detected (file : ConfigFile)
    (proc : option (list ProcEntry)) (name : string) (pid : Z) :
  scanProcesses (ignoredGames (loadConfig file defaultSettings)) proc
  = Some (name, pid) ->
  name <> "" ->
  ~ In name ["SteamLinuxRuntime_soldier"; "SteamLinuxRuntime_sniper";
             "SteamLinuxRuntime"]
  /\ (forall cfg, file = ConfigParsed cfg -> ~ In name (IgnoredGames cfg)).
Proof.
  intros Hscan Hne.
  assert (Hig : is_ignored (ignoredGames (loadConfig file defaultSettings)) name
                = false).
  { destruct proc as [entries|]; cbn [scanProcesses] in Hscan.
    - apply scanEntries_accepted in Hscan as [[Hn _]|Hacc%accepted_spec];
        [contradiction | apply Hacc].
    - injection Hscan as <- _. contradiction. }
  assert (Hnot : ~ is_ignored (ignoredGames (loadConfig file defaultSettings)) name
                   = true) by (rewrite Hig; discriminate).
  rewrite loadConfig_ignored_iff in Hnot.
  split.
  - intros Hin. apply Hnot. left.
    cbn [In] in Hin. destruct Hin as [<-|[<-|[<-|[]]]]; reflexivity.
  - intros cfg Hfile Hin. apply Hnot. right. eauto.
Qed.

(** X13. The scan interval after [loadConfig] is the configured number
    of seconds when that is positive and at most 9223372036; a value of
    zero or less, like a missing or malformed file, leaves the interval
    as it was.  From 9223372037 seconds on the product with [time.Second]
    leaves the 64 bits of a [time.Duration], and up to 18446744073
    seconds the interval comes out negative. *)
Theorem loadConfig_scanInterval (file : ConfigFile) (st : Settings) :
  (forall cfg, file = ConfigParsed cfg ->
     (0 < ScanIntervalSeconds cfg <= 9223372036 ->
      scanInterval (loadConfig file st) = ScanIntervalSeconds cfg * Second)
     /\ (ScanIntervalSeconds cfg <= 0 ->
         scanInterval (loadConfig file st) = scanInterval st)
     /\ (9223372036 < ScanIntervalSeconds cfg <= 18446744073 ->
         scanInterval (loadConfig file st) < 0))
  /\ ((file = ConfigMissing \/ file = ConfigMalformed) ->
      loadConfig file st = st).
Proof.
  split.
  - intros cfg ->. cbn [loadConfig scanInterval]. unfold to_int64, Second.
    repeat split; intros H.
    + destruct (Z.ltb_spec 0 (ScanIntervalSeconds cfg)); [|lia].
      rewrite Z.mod_small; lia.
    + destruct (Z.ltb_spec 0 (ScanIntervalSeconds cfg)); [lia|reflexivity].
    + destruct (Z.ltb_spec 0 (ScanIntervalSeconds cfg)); [|lia].
      replace (ScanIntervalSeconds cfg * 1000000000 + 2 ^ 63)
        with (ScanIntervalSeconds cfg * 1000000000 - 2 ^ 63 + 1 * 2 ^ 64) by lia.
      rewrite Z.mod_add by lia. rewrite Z.mod_small; lia.
  - intros [->| ->]; reflexivity.
Qed.

(** ** Further properties: frames on a stream *)

(** A read with room for more than what is left takes all of it and
    leaves zeros behind it. *)
Lemma conn_Read_short (n : nat) (data : list byte) :
  data <> [] -> (length data <= n)%nat ->
  conn_Read n data = Some ((data ++ repeat x00 (n - length data))%list, []).
Proof.
  intros Hdata Hlen. unfold conn_Read.
  destruct n as [|n]; [destruct data; [contradiction | cbn in Hlen; lia]|].
  destruct data as [|b data]; [contradiction|].
  rewrite firstn_all2, skipn_all2 by exact Hlen. reflexivity.
Qed.

(** [readIpcResponse] behind a header that announces [n] bytes. *)
Lemma readIpcResponse_header (opcode n : Z) (data : list byte) :
  0 <= n < 2 ^ 32 ->
  readIpcResponse
    (LittleEndian_PutUint32 opcode ++ LittleEndian_PutUint32 (to_int32 n) ++ data)%list
  = match conn_Read (Z.to_nat n) data with
    | None => (PayloadError, data)
    | Some (payload, rest) => (Response payload, rest)
    end.
Proof.
  intros Hn. unfold readIpcResponse.
  change (conn_Read 8 (LittleEndian_PutUint32 opcode
                       ++ LittleEndian_PutUint32 (to_int32 n) ++ data)%list)
    with (Some ((LittleEndian_PutUint32 opcode
                 ++ LittleEndian_PutUint32 (to_int32 n))%list, data)).
  cbv iota beta.
  change (skipn 4 (LittleEndian_PutUint32 opcode
                   ++ LittleEndian_PutUint32 (to_int32 n))%list)
    with (LittleEndian_PutUint32 (to_int32 n)).
  rewrite Uint32_PutUint32, to_int32_low_bits, Z.mod_small by exact Hn.
  reflexivity.
Qed.

(** X14. Frames follow one another on the stream without loss, once
    they have arrived.  With a frame of fewer than 2^32 body bytes at the
    head of the stream and anything behind it, [readIpcResponse] reads
    that body and leaves what follows untouched, whenever the header has
    arrived before the header is read and the rest before the payload is
    read. *)
Theorem readIpcResponse_leaves_rest (opcode : Z) (body rest first later : list byte) :
  Z.of_nat (length body) < 2 ^ 32 ->
  (first ++ later)%list = (encodeFrame opcode body ++ rest)%list ->
  (8 <= length first)%nat ->
  readIpcResponse_on first later = (Response body, rest).
Proof. apply readIpcResponse_on_arrived. Qed.

Lemma readIpcResponse_leaves_rest_witness :
  readIpcResponse_on
    (firstn 9 (encodeFrame 1 [x7b; x7d] ++ encodeFrame 1 [x5b; x5d]))
    (skipn 9 (encodeFrame 1 [x7b; x7d] ++ encodeFrame 1 [x5b; x5d]))
  = (Response [x7b; x7d], encodeFrame 1 [x5b; x5d]).
Proof.
  apply (readIpcResponse_leaves_rest 1);
    [cbn; lia | reflexivity | vm_compute; lia].
Defined.

(** X15. A frame that is cut short is not reported as such.  When only
    the header of a frame with a body arrives, the payload read fails;
    when the header and a part of the body arrive, the part is logged as
    the payload, filled up with zero bytes to the announced length. *)
Theorem readIpcResponse_truncated (opcode : Z) (got missing : list byte) :
  Z.of_nat (length (got ++ missing)) < 2 ^ 32 ->
  missing <> [] ->
  (got = [] ->
   readIpcResponse (firstn 8 (encodeFrame opcode (got ++ missing)))
   = (PayloadError, []))
  /\ (got <> [] ->
      readIpcResponse (firstn 8 (encodeFrame opcode (got ++ missing)) ++ got)%list
      = (Response (got ++ repeat x00 (length missing))%list, [])).
Proof.
  intros Hlen Hmissing.
  change (firstn 8 (encodeFrame opcode (got ++ missing)))
    with (LittleEndian_PutUint32 (to_int32 opcode)
          ++ LittleEndian_PutUint32 (to_int32 (Z.of_nat (length (got ++ missing)))))%list.
  split.
  - intros ->.
    rewrite <- (app_nil_r (LittleEndian_PutUint32 (to_int32 opcode) ++ _)%list).
    rewrite <- !app_assoc. rewrite readIpcResponse_header by lia.
    rewrite Nat2Z.id. destruct missing; [contradiction|]. reflexivity.
  - intros Hgot. rewrite <- !app_assoc. rewrite readIpcResponse_header by lia.
    rewrite Nat2Z.id, conn_Read_short;
      [ | exact Hgot | rewrite length_app; lia ].
    rewrite length_app. replace (length got + length missing - length got)%nat
      with (length missing) by lia.
    reflexivity.
Qed.

Lemma readIpcResponse_truncated_witness :
  readIpcResponse (firstn 8 (encodeFrame 1 ([x7b] ++ [x7d])) ++ [x7b])%list
  = (Response ([x7b] ++ repeat x00 (length [x7d]))%list, []).
Proof.
  apply (readIpcResponse_truncated 1 [x7b] [x7d]); [cbn; lia | discriminate..].
Defined.

(** X16. The header read fails on an empty stream only.  A header of
    one to four bytes is taken for a whole one: the missing bytes read as
    zero, the announced length is zero, and an empty payload is logged. *)
Theorem readIpcResponse_short_header (avail : list byte) :
  (fst (readIpcResponse avail) = HeaderError <-> avail = [])
  /\ ((0 < length avail <= 4)%nat -> readIpcResponse avail = (Response [], [])).
Proof.
  split; [split|].
  - destruct avail as [|b avail]; [reflexivity|].
    unfold readIpcResponse. cbn [conn_Read].
    destruct (conn_Read _ _) as [[payload rest]|]; discriminate.
  - intros ->. reflexivity.
  - intros Hlen.
    destruct avail as [|b0 [|b1 [|b2 [|b3 [|b4 avail]]]]];
      cbn in Hlen; try lia; reflexivity.
Qed.

Lemma readIpcResponse_short_header_witness :
  readIpcResponse [x01; x00] = (Response [], []).
Proof.
  apply (proj2 (readIpcResponse_short_header [x01; x00])). cbn. lia.
Defined.

(** X17. Two frames are equal only when their bodies are equal and
    their opcodes agree in the low 32 bits. *)
Theorem encodeFrame_injective (op1 op2 : Z) (body1 body2 : list byte) :
  encodeFrame op1 body1 = encodeFrame op2 body2 ->
  body1 = body2
  /\ to_int32 op1 = to_int32 op2
  /\ (- 2 ^ 31 <= op1 < 2 ^ 31 -> - 2 ^ 31 <= op2 < 2 ^ 31 -> op1 = op2).
Proof.
  intros Heq.
  assert (Hbody : body1 = body2).
  { apply (f_equal (skipn 8)) in Heq. exact Heq. }
  assert (Hop : to_int32 op1 = to_int32 op2).
  { apply (f_equal (fun f => LittleEndian_Uint32 (firstn 4 f))) in Heq.
    change (LittleEndian_Uint32 (LittleEndian_PutUint32 (to_int32 op1))
            = LittleEndian_Uint32 (LittleEndian_PutUint32 (to_int32 op2))) in Heq.
    rewrite !Uint32_PutUint32 in Heq.
    unfold to_int32 in *.
    rewrite !Zminus_mod_idemp_l in Heq.
    replace (op1 + 2 ^ 31 - 2 ^ 31) with op1 in Heq by lia.
    replace (op2 + 2 ^ 31 - 2 ^ 31) with op2 in Heq by lia.
    rewrite <- (Zplus_mod_idemp_l op1), <- (Zplus_mod_idemp_l op2), Heq.
    reflexivity. }
  repeat split; [exact Hbody | exact Hop |].
  intros H1 H2. rewrite <- (to_int32_small op1 H1), <- (to_int32_small op2 H2).
  exact Hop.
Qed.

Lemma encodeFrame_injective_witness :
  [x7b; x7d] = [x7b; x7d] /\ to_int32 1 = to_int32 1.
Proof.
  pose proof (encodeFrame_injective 1 1 [x7b; x7d] [x7b; x7d] eq_refl)
    as (Hbody & Hop & _).
  exact (conj Hbody Hop).
Defined.

(** ** Further properties: socket path, connection and loop *)

Lemma run_user_path_nonempty (t : string) : nonempty ("/run/user/" ++ t) = true.
Proof. reflexivity. Qed.

(** X18. [findDiscordSocket] returns the first of its three candidates
    that exists, in the order canonical, Flatpak, Snap.  The path it
    returns exists; it reports an error exactly when none of the three
    does, and exactly then the path is empty, which is what the callers,
    who drop the error, test. *)
Theorem findDiscordSocket_first_existing (uid : Z) (stat_ok : string -> bool) :
  let canonical := "/run/user/" ++ itoa uid ++ "/discord-ipc-0" in
  let flatpak :=
    "/run/user/" ++ itoa uid ++ "/app/com.discordapp.Discord/discord-ipc-0" in
  let snap := "/run/user/" ++ itoa uid ++ "/snap.discord/discord-ipc-0" in
  let found := findDiscordSocket uid stat_ok in
  (stat_ok canonical = true -> found = (canonical, true))
  /\ (stat_ok canonical = false -> stat_ok flatpak = true -> found = (flatpak, true))
  /\ (stat_ok canonical = false -> stat_ok flatpak = false -> stat_ok snap = true ->
      found = (snap, true))
  /\ (stat_ok canonical = false -> stat_ok flatpak = false -> stat_ok snap = false ->
      found = ("", false))
  /\ (snd found = true -> stat_ok (fst found) = true)
  /\ (fst found = "" <-> snd found = false).
Proof.
  cbv zeta. unfold findDiscordSocket. cbn [List.find].
  destruct (stat_ok ("/run/user/" ++ itoa uid ++ "/discord-ipc-0")) eqn:H1;
    [|destruct (stat_ok ("/run/user/" ++ itoa uid
                         ++ "/app/com.discordapp.Discord/discord-ipc-0")) eqn:H2;
      [|destruct (stat_ok ("/run/user/" ++ itoa uid
                           ++ "/snap.discord/discord-ipc-0")) eqn:H3]];
    cbn [fst snd];
    (repeat apply conj; try discriminate; try reflexivity; try (intros; assumption);
     try (intros; reflexivity);
     try (split; intros H; [|discriminate H];
          apply nonempty_false in H; rewrite run_user_path_nonempty in H;
          discriminate H)).
Qed.

Lemma findDiscordSocket_first_existing_witness :
  findDiscordSocket 1000
    (fun p => String.eqb p "/run/user/1000/app/com.discordapp.Discord/discord-ipc-0")
  = ("/run/user/" ++ itoa 1000 ++ "/app/com.discordapp.Discord/discord-ipc-0", true).
Proof.
  apply (findDiscordSocket_first_existing 1000
           (fun p => String.eqb p
                       "/run/user/1000/app/com.discordapp.Discord/discord-ipc-0"));
    reflexivity.
Defined.

Lemma filter_fresh (conn : Conn) (open : list Conn) :
  is_open conn open = false ->
  List.filter (fun c => negb (Nat.eqb c conn)) (conn :: open) = open.
Proof.
  intros Hfresh. cbn [List.filter]. rewrite Nat.eqb_refl. cbn [negb].
  induction open as [|c open IH]; [reflexivity|].
  unfold is_open in Hfresh. cbn [existsb] in Hfresh.
  apply orb_false_iff in Hfresh as [Hc Hrest].
  cbn [List.filter]. rewrite Nat.eqb_sym, Hc. cbn [negb].
  rewrite (IH Hrest). reflexivity.
Qed.

(** X19. [connectIPC] dials once and leaves no socket behind when it
    fails: a call that returns an error, from the dial or from the
    handshake write, leaves the open handles as they were, and a call
    that returns a connection has opened that one handle and nothing
    else. *)
Theorem connectIPC_no_leak (env : TickEnv) (path clientID : string) (w : World) :
  is_open (next_conn w) (open_conns w) = false ->
  count is_dial (snd (connectIPC env path clientID w)) = 1%nat
  /\ match fst (fst (connectIPC env path clientID w)) with
     | Some conn =>
         open_conns (snd (fst (connectIPC env path clientID w)))
         = conn :: open_conns w
     | None =>
         open_conns (snd (fst (connectIPC env path clientID w))) = open_conns w
     end.
Proof.
  intros Hfresh.
  destruct (dial_ok env) eqn:Hd; [destruct (handshake_write_ok env) eqn:Hw|].
  - rewrite connectIPC_connected by assumption. split; reflexivity.
  - rewrite connectIPC_write_failed by assumption. split; [reflexivity|].
    cbn [fst snd open_conns]. apply filter_fresh, Hfresh.
  - rewrite connectIPC_dial_failed by assumption. split; reflexivity.
Qed.

Lemma connectIPC_no_leak_witness :
  open_conns
    (snd (fst (connectIPC env_rimworld_refused "/run/user/1000/discord-ipc-0"
                          "000000000000000000" world_balatro)))
  = open_conns world_balatro.
Proof.
  apply (proj2 (connectIPC_no_leak env_rimworld_refused
                  "/run/user/1000/discord-ipc-0" "000000000000000000"
                  world_balatro eq_refl)).
Defined.

Lemma replay_app (open : list Conn) (evs1 evs2 : list Event) :
  replay open (evs1 ++ evs2)%list
  = match replay open evs1 with
    | Some open1 => replay open1 evs2
    | None => None
    end.
Proof.
  revert open. induction evs1 as [|e evs1 IH]; intros open; [reflexivity|].
  cbn [app replay].
  destruct e as [p [c|]|c d ok|c o|c]; try destruct (is_open c open);
    try reflexivity; apply IH.
Qed.

Section MoreLoopProperties.

Variable unicode_ToLower : string -> string.
Variable nameToID : gmap string string.
Variable osRelease : string.
Variable uid : Z.

Local Abbreviation resolve := (resolveClientID unicode_ToLower nameToID).
Local Abbreviation tick' := (tick unicode_ToLower nameToID osRelease uid).
Local Abbreviation run' := (run unicode_ToLower nameToID osRelease uid).

(** All the ways through one tick, with the scan result named. *)
Ltac tick_paths env s :=
  let g := fresh "gameName" in
  let pid := fresh "pid" in
  let Hscan := fresh "Hscan" in
  destruct s as [path0 cid0 [conn0|]];
  destruct (scan env) as [g pid] eqn:Hscan;
  unfold tick, disconnectIfSwitched, connectIfDisconnected, connectIPC,
    setActivity, pathAfterProbe;
  io_unfold; rewrite ?Hscan;
  fold (activityFrame g pid osRelease (clock env));
  fold (handshakeFrame (resolve g));
  repeat (cbn -[nonempty String.eqb count connect_failed replay is_open forallb];
          rewrite ?Nat.eqb_refl;
          cbn -[nonempty String.eqb count connect_failed replay is_open forallb];
          match goal with
          | |- context [if ?b then _ else _] => destruct b eqn:?
          end).

(** The events of a tick use the handle the session holds, or the one
    the tick's own dial gave out, and no other. *)
Lemma tick_replay (env : TickEnv) (s : Session) (w : World) :
  open_conns w = live s ->
  replay (open_conns w) (snd (tick' env s w))
  = Some (open_conns (snd (fst (tick' env s w)))).
Proof.
  intros Hopen. destruct w as [open next]. unfold live in Hopen.
  tick_paths env s; cbn in Hopen; subst open;
    repeat (progress (cbn -[nonempty String.eqb]; rewrite ?Nat.eqb_refl));
    reflexivity.
Qed.

(** X20. Over any run of ticks that starts with the world holding the
    handle of the session and no other, every write, response read and
    close is on a handle that is open at that moment, no handle is closed
    twice, and the handles left open are those the events account for. *)
Theorem run_uses_open_handles (envs : list TickEnv) (s : Session) (w : World) :
  open_conns w = live s ->
  replay (open_conns w) (concat (fst (fst (run' envs s w))))
  = Some (open_conns (snd (run' envs s w))).
Proof.
  revert s w. induction envs as [|env rest IH]; intros s w Hopen; [reflexivity|].
  cbn [run].
  pose proof (tick_replay env s w Hopen) as Hreplay.
  pose proof (tick_one_live_handle unicode_ToLower nameToID osRelease uid
                env s w Hopen) as Hlive.
  destruct (tick' env s w) as [[s1 w1] ev]. cbn [fst snd] in Hreplay, Hlive.
  specialize (IH s1 w1 Hlive).
  destruct (run' rest s1 w1) as [[evs s2] w2]. cbn [fst snd concat] in *.
  rewrite replay_app, Hreplay. exact IH.
Qed.

Lemma tick_keeps_socket_path (env : TickEnv) (s : Session) (w : World) :
  nonempty (socketPath s) = true ->
  socketPath (fst (fst (tick' env s w))) = socketPath s
  /\ forallb (dials_only (socketPath s)) (snd (tick' env s w)) = true.
Proof.
  intros Hpath.
  assert (Heq : String.eqb (socketPath s) "" = false)
    by (apply eqb_empty_false, Hpath).
  tick_paths env s; cbn [socketPath] in Hpath, Heq;
    rewrite ?Heq in *; try discriminate;
    cbn [forallb dials_only andb socketPath fst snd];
    rewrite ?String.eqb_refl; split; reflexivity.
Qed.

(** X21. A socket path, once the session has one, stays: over any run
    of ticks the session keeps it and every dial goes to it, also after
    connects that failed.  The loop probes again only while it has no
    path. *)
Theorem run_keeps_socket_path (envs : list TickEnv) (s : Session) (w : World) :
  socketPath s <> "" ->
  socketPath (snd (fst (run' envs s w))) = socketPath s
  /\ forallb (forallb (dials_only (socketPath s))) (fst (fst (run' envs s w))) = true.
Proof.
  intros Hpath%nonempty_true.
  revert s w Hpath. induction envs as [|env rest IH]; intros s w Hpath;
    [split; reflexivity|].
  cbn [run].
  pose proof (tick_keeps_socket_path env s w Hpath) as [Hsame Hdials].
  destruct (tick' env s w) as [[s1 w1] ev]. cbn [fst snd] in Hsame, Hdials.
  rewrite <- Hsame in Hpath. specialize (IH s1 w1 Hpath).
  destruct (run' rest s1 w1) as [[evs s2] w2]. cbn [fst snd forallb] in *.
  rewrite Hsame in IH. destruct IH as [-> ->]. rewrite Hdials. split; reflexivity.
Qed.

(** X22. After every tick, from whatever session, a session that holds
    a connection holds it for the game of this tick: a game was detected,
    and [currentClientID] is what that game's name resolves to. *)
Theorem tick_connected_for_current_game (env : TickEnv) (s : Session) (w : World)
    (conn : Conn) :
  ipcConn (fst (fst (tick' env s w))) = Some conn ->
  nonempty (fst (scan env)) = true
  /\ currentClientID (fst (fst (tick' env s w))) = resolve (fst (scan env)).
Proof.
  tick_paths env s; cbn [fst snd ipcConn currentClientID];
    intros Hconn; try discriminate Hconn;
    repeat match goal with
           | H : negb _ = false |- _ => apply negb_false_iff in H
           | H : negb _ = true |- _ => apply negb_true_iff in H
           | H : String.eqb _ _ = true |- _ => apply String.eqb_eq in H
           end;
    split; congruence.
Qed.

(** X23. What one tick does at most: it dials at most once, writes a
    handshake frame only behind a dial, and writes one activity frame
    when it ends with a connection and none when it does not.  A tick
    that detects no game does not dial. *)
Theorem tick_budget (env : TickEnv) (s : Session) (w : World) :
  (count is_dial (snd (tick' env s w)) <= 1)%nat
  /\ (count (is_frame 0) (snd (tick' env s w))
      <= count is_dial (snd (tick' env s w)))%nat
  /\ count (is_frame 1) (snd (tick' env s w))
     = match ipcConn (fst (fst (tick' env s w))) with
       | Some _ => 1%nat
       | None => 0%nat
       end
  /\ (nonempty (fst (scan env)) = false ->
      count is_dial (snd (tick' env s w)) = 0%nat).
Proof.
  tick_paths env s; unfold count;
    cbn -[nonempty String.eqb is_frame];
    autorewrite with frames; cbn -[nonempty String.eqb];
    repeat apply conj; try lia; try reflexivity;
    try (intros Hno;
         repeat match goal with
                | H : negb _ = false |- _ => apply negb_false_iff in H
                end; congruence).
Qed.

(** X24. One good tick is enough for a session that is not connected
    for the game at hand.  From a session without a connection, whatever
    identifier it still carries, or with a connection under another
    identifier, a tick that detects a game and reaches the peer (a socket
    path at hand; dial, handshake write and activity write succeed)
    closes the old connection if there is one, dials once, and ends
    connected on the new handle under the identifier of that game, with
    the handshake frame and the activity frame for the game written on
    that handle. *)
Theorem tick_recovers (env : TickEnv) (s : Session) (w : World)
    (gameName : string) (pid : Z) :
  scan env = (gameName, pid) ->
  gameName <> "" ->
  ipcConn s = None \/ currentClientID s <> resolve gameName ->
  pathAfterProbe uid env s <> "" ->
  dial_ok env = true ->
  handshake_write_ok env = true ->
  activity_write_ok env = true ->
  fst (fst (tick' env s w))
  = {| socketPath := pathAfterProbe uid env s;
       currentClientID := resolve gameName;
       ipcConn := Some (next_conn w) |}
  /\ snd (tick' env s w)
     = (match ipcConn s with
        | Some old => [EvClose old]
        | None => []
        end
        ++ [ EvDial (pathAfterProbe uid env s) (Some (next_conn w));
             EvWrite (next_conn w) (handshakeFrame (resolve gameName)) true;
             EvResponse (next_conn w) (fst (readIpcResponse (peer_reply env)));
             EvWrite (next_conn w)
               (activityFrame gameName pid osRelease (clock env)) true ])%list.
Proof.
  intros Hscan Hgame%nonempty_true Hstate Hpath%nonempty_true Hd Hw Ha.
  destruct s as [path0 cid0 [conn0|]].
  - destruct Hstate as [Hnone|Hid]; [discriminate Hnone|].
    cbn [currentClientID] in Hid. apply String.eqb_neq in Hid.
    unfold pathAfterProbe in *. cbn [socketPath ipcConn] in *.
    unfold tick, disconnectIfSwitched, connectIfDisconnected, connectIPC,
      setActivity.
    io_unfold. rewrite Hscan, Hgame, Hd, Hw, Ha.
    fold (activityFrame gameName pid osRelease (clock env)).
    fold (handshakeFrame (resolve gameName)).
    cbn -[nonempty String.eqb]. rewrite Hid.
    cbn -[nonempty String.eqb]. rewrite Hpath.
    cbn -[nonempty String.eqb]. split; reflexivity.
  - rewrite (tick_connect unicode_ToLower nameToID osRelease uid env _ w gameName pid)
      by (assumption || reflexivity).
    rewrite Ha. split; reflexivity.
Qed.

(** X25. While every detected game resolves to the identifier the
    session is connected under (the same game, or another one with the
    same identifier, such as two games the catalog does not know), a tick
    does nothing but write one activity frame on the connection the
    session has.  The outcome of those writes is not looked at: also when
    every one of them fails, the session and the open handle stay as they
    are. *)
Theorem run_steady_state (envs : list TickEnv) (s : Session) (w : World)
    (conn : Conn) :
  ipcConn s = Some conn ->
  Forall (fun env => fst (scan env) <> ""
                     /\ resolve (fst (scan env)) = currentClientID s) envs ->
  run' envs s w
  = (List.map
       (fun env =>
          [EvWrite conn
             (activityFrame (fst (scan env)) (snd (scan env)) osRelease (clock env))
             (activity_write_ok env)])
       envs,
     s, w).
Proof.
  intros Hconn Hall.
  induction Hall as [|env rest [Hgame%nonempty_true Hid] _ IH]; [reflexivity|].
  cbn [run List.map].
  rewrite (tick_same_game unicode_ToLower nameToID osRelease uid env s w
             (fst (scan env)) (snd (scan env)) conn);
    [ | apply surjective_pairing | assumption | assumption | symmetry; exact Hid ].
  rewrite IH. reflexivity.
Qed.

(** X28. A game the catalog does not know is not turned away: the tick
    connects under the placeholder identifier, and as the reply to the
    handshake is not looked at, the session counts as connected under it
    and the activity frame for the game is written. *)
Theorem unknown_game_connects_as_sentinel (env : TickEnv) (s : Session) (w : World)
    (gameName : string) (pid : Z) :
  scan env = (gameName, pid) ->
  gameName <> "" ->
  nameToID !! normalizeGameName unicode_ToLower gameName = None ->
  ipcConn s = None ->
  pathAfterProbe uid env s <> "" ->
  dial_ok env = true ->
  handshake_write_ok env = true ->
  tick' env s w
  = ({| socketPath := pathAfterProbe uid env s;
        currentClientID := "000000000000000000";
        ipcConn := Some (next_conn w) |},
     {| open_conns := next_conn w :: open_conns w; next_conn := S (next_conn w) |},
     [ EvDial (pathAfterProbe uid env s) (Some (next_conn w));
       EvWrite (next_conn w)
         (encodeFrame 0 (list_byte_of_string sentinel_handshake_body)) true;
       EvResponse (next_conn w) (fst (readIpcResponse (peer_reply env)));
       EvWrite (next_conn w) (activityFrame gameName pid osRelease (clock env))
               (activity_write_ok env) ]).
Proof.
  intros Hscan Hgame%nonempty_true Hunknown Hconn Hpath%nonempty_true Hd Hw.
  rewrite (tick_connect unicode_ToLower nameToID osRelease uid env s w gameName pid)
    by assumption.
  unfold resolveClientID. rewrite Hunknown. reflexivity.
Qed.

End MoreLoopProperties.

(** ** Further properties: the distribution label *)

Section OsReleaseProperties.

Variable TrimFunc_IsSpace : string -> string.
Variable TrimRightFunc_IsSpace : string -> string.
Variable GOOS : string.

Local Abbreviation parse := (parseLine TrimFunc_IsSpace TrimRightFunc_IsSpace).
Local Abbreviation key_of := (lineKey TrimFunc_IsSpace TrimRightFunc_IsSpace).
Local Abbreviation info := (distroInfo TrimFunc_IsSpace TrimRightFunc_IsSpace).

Local Abbreviation info_step :=
  (distroInfoStep TrimFunc_IsSpace TrimRightFunc_IsSpace).

Lemma info_fold_other (lines : list string) (m : gmap string string) (k : string) :
  Forall (fun l => key_of l <> Some k) lines ->
  fold_left info_step lines m !! k = m !! k.
Proof.
  revert m. induction lines as [|l lines IH]; intros m Hall; [reflexivity|].
  inversion Hall as [|? ? Hl Hrest]; subst. cbn [fold_left].
  rewrite IH by assumption. unfold distroInfoStep, lineKey in *.
  destruct (parse l) as [[k' v']|]; [|reflexivity].
  apply lookup_insert_ne. intros ->. apply Hl. reflexivity.
Qed.

Lemma info_last (pre post : list string) (line k v : string) :
  parse line = Some (k, v) ->
  Forall (fun l => key_of l <> Some k) post ->
  info (pre ++ line :: post)%list !! k = Some v.
Proof.
  intros Hline Hpost. unfold distroInfo.
  rewrite fold_left_app. cbn [fold_left]. rewrite info_fold_other by assumption.
  unfold distroInfoStep at 1. rewrite Hline. apply lookup_insert_eq.
Qed.

Lemma info_none (lines : list string) (k : string) :
  Forall (fun l => key_of l <> Some k) lines ->
  info lines !! k = None.
Proof.
  intros Hall. unfold distroInfo.
  rewrite info_fold_other by assumption. apply lookup_empty.
Qed.

(** X26. [readOSRelease] gives the value of the last [PRETTY_NAME] line,
    wherever the [NAME] lines stand; without a [PRETTY_NAME] line it
    gives the value of the last [NAME] line; without either, when the
    file cannot be opened, and when the scanner ends with an error,
    whatever it read before, it gives [runtime.GOOS]. *)
Theorem readOSRelease_priority (lines : list string) :
  (forall pre line post v,
      lines = (pre ++ line :: post)%list ->
      parse line = Some ("PRETTY_NAME", v) ->
      Forall (fun l => key_of l <> Some "PRETTY_NAME") post ->
      readOSRelease TrimFunc_IsSpace TrimRightFunc_IsSpace GOOS
        (OsReleaseLines lines false) = v)
  /\ (forall pre line post v,
        lines = (pre ++ line :: post)%list ->
        Forall (fun l => key_of l <> Some "PRETTY_NAME") lines ->
        parse line = Some ("NAME", v) ->
        Forall (fun l => key_of l <> Some "NAME") post ->
        readOSRelease TrimFunc_IsSpace TrimRightFunc_IsSpace GOOS
          (OsReleaseLines lines false) = v)
  /\ (Forall (fun l => key_of l <> Some "PRETTY_NAME") lines ->
      Forall (fun l => key_of l <> Some "NAME") lines ->
      readOSRelease TrimFunc_IsSpace TrimRightFunc_IsSpace GOOS
        (OsReleaseLines lines false) = GOOS)
  /\ readOSRelease TrimFunc_IsSpace TrimRightFunc_IsSpace GOOS
       (OsReleaseLines lines true) = GOOS
  /\ readOSRelease TrimFunc_IsSpace TrimRightFunc_IsSpace GOOS OsReleaseMissing
     = GOOS.
Proof.
  unfold readOSRelease. repeat apply conj; try reflexivity.
  - intros pre line post v -> Hline Hpost.
    rewrite (info_last pre post line _ v Hline Hpost). reflexivity.
  - intros pre line post v -> Hpretty Hline Hpost.
    rewrite (info_none _ _ Hpretty).
    rewrite (info_last pre post line _ v Hline Hpost). reflexivity.
  - intros Hpretty Hname.
    rewrite (info_none _ _ Hpretty), (info_none _ _ Hname). reflexivity.
Qed.

End OsReleaseProperties.

Lemma readOSRelease_priority_witness :
  readOSRelease (fun s => s) (fun s => s) "linux"
    (OsReleaseLines
       ([os_release_name_line]
        ++ os_release_pretty_line :: ["ID=fedora"; "# no value here"])%list
       false)
  = "Fedora Linux 43 (Kinoite)".
Proof.
  apply (proj1 (readOSRelease_priority (fun s => s) (fun s => s) "linux" _)
           [os_release_name_line] os_release_pretty_line
           ["ID=fedora"; "# no value here"]).
  - reflexivity.
  - reflexivity.
  - repeat constructor; vm_compute; discriminate.
Defined.

(** ** The further properties at concrete inputs *)

Lemma normalizeGameName_ascii_insensitive_witness :
  normalizeGameName (fun s => s) ("Half" ++ String "-" "Life 2")
  = normalizeGameName (fun s => s) ("Half" ++ "Life 2").
Proof.
  apply (proj2 (normalizeGameName_ascii_insensitive (fun s => s)
                  "Half" "Life 2" "-" eq_refl eq_refl eq_refl)).
  reflexivity.
Defined.

Lemma populateMap_entries_witness :
  (exists app, In app [balatro_app]
     /\ "balatro" = normalizeGameName (fun s => s) (Name app)
     /\ "1209665818464358430" = ID app)
  /\ Str.all az09 "balatro" = true.
Proof.
  apply (populateMap_entries (fun s => s) [balatro_app] "balatro"
           "1209665818464358430").
  vm_compute. reflexivity.
Defined.

Lemma populateMap_size_bound_witness :
  (size (populateMap (fun s => s)
           ([] ++ balatro_app :: [] ++ balatro_dash_app :: [])%list ∅)
   < length ([] ++ balatro_app :: [] ++ balatro_dash_app :: [])%list)%nat.
Proof.
  apply (proj2 (populateMap_size_bound (fun s => s) _)
           [] balatro_app [] balatro_dash_app []); reflexivity.
Defined.

Lemma scanProcesses_returns_witness :
  exists name pid,
    scanProcesses defaultIgnoredGames (Some [entry_self; entry_812])
    = Some (name, pid).
Proof.
  apply scanProcesses_returns.
  intros entries [= <-]. repeat constructor; discriminate.
Defined.

Lemma loadConfig_ignored_witness :
  is_ignored (ignoredGames (loadConfig (ConfigParsed example_config) defaultSettings))
    "Proton Experimental" = true.
Proof.
  apply (proj1 (proj2 (loadConfig_ignored (ConfigParsed example_config)
                         defaultSettings "Proton Experimental"))
           example_config eq_refl).
  cbn. auto.
Defined.

Lemma configured_folders_never_detected_witness :
  ~ In "Balatro" ["SteamLinuxRuntime_soldier"; "SteamLinuxRuntime_sniper";
                  "SteamLinuxRuntime"]
  /\ (forall cfg, ConfigParsed example_config = ConfigParsed cfg ->
        ~ In "Balatro" (IgnoredGames cfg)).
Proof.
  apply (configured_folders_never_detected (ConfigParsed example_config)
           (Some [entry_self; entry_812]) "Balatro" 812).
  - vm_compute. reflexivity.
  - discriminate.
Defined.

Lemma loadConfig_scanInterval_witness :
  scanInterval (loadConfig (ConfigParsed example_config) defaultSettings)
  = ScanIntervalSeconds example_config * Second.
Proof.
  apply (proj1 (proj1 (loadConfig_scanInterval (ConfigParsed example_config)
                         defaultSettings)
                  example_config eq_refl)).
  cbn. lia.
Defined.

Lemma run_one_live_handle_witness :
  open_conns
    (snd (run (fun s => s) balatro_catalog "Fedora Linux 43" 1000
              [env_balatro; env_rimworld_refused; env_rimworld]
              session_no_socket emptyWorld))
  = live
      (snd (fst (run (fun s => s) balatro_catalog "Fedora Linux 43" 1000
                     [env_balatro; env_rimworld_refused; env_rimworld]
                     session_no_socket emptyWorld))).
Proof.
  apply run_one_live_handle. reflexivity.
Defined.

Lemma run_uses_open_handles_witness :
  replay (open_conns emptyWorld)
    (concat
       (fst (fst (run (fun s => s) balatro_catalog "Fedora Linux 43" 1000
                      [env_balatro; env_rimworld_refused; env_rimworld; env_no_game]
                      session_no_socket emptyWorld))))
  = Some
      (open_conns
         (snd (run (fun s => s) balatro_catalog "Fedora Linux 43" 1000
                   [env_balatro; env_rimworld_refused; env_rimworld; env_no_game]
                   session_no_socket emptyWorld))).
Proof.
  apply run_uses_open_handles. reflexivity.
Defined.

Lemma run_keeps_socket_path_witness :
  socketPath
    (snd (fst (run (fun s => s) balatro_catalog "Fedora Linux 43" 1000
                   [env_rimworld_refused; env_no_game; env_rimworld]
                   session_balatro world_balatro)))
  = socketPath session_balatro.
Proof.
  apply (proj1 (run_keeps_socket_path (fun s => s) balatro_catalog
                  "Fedora Linux 43" 1000
                  [env_rimworld_refused; env_no_game; env_rimworld]
                  session_balatro world_balatro ltac:(discriminate))).
Defined.

Lemma tick_connected_for_current_game_witness :
  nonempty (fst (scan env_rimworld)) = true
  /\ currentClientID
       (fst (fst (tick (fun s => s) balatro_catalog "Fedora Linux 43" 1000
                       env_rimworld session_balatro world_balatro)))
     = resolveClientID (fun s => s) balatro_catalog (fst (scan env_rimworld)).
Proof.
  apply (tick_connected_for_current_game (fun s => s) balatro_catalog
           "Fedora Linux 43" 1000 env_rimworld session_balatro world_balatro 1%nat).
  vm_compute. reflexivity.
Defined.

Lemma tick_budget_witness :
  count is_dial
    (snd (tick (fun s => s) balatro_catalog "Fedora Linux 43" 1000
               env_no_game session_balatro world_balatro))
  = 0%nat.
Proof.
  apply (tick_budget (fun s => s) balatro_catalog "Fedora Linux 43" 1000
           env_no_game session_balatro world_balatro).
  reflexivity.
Defined.

Lemma tick_recovers_witness :
  fst (fst (tick (fun s => s) balatro_catalog "Fedora Linux 43" 1000
                 env_rimworld session_stale emptyWorld))
  = {| socketPath := "/run/user/1000/discord-ipc-0";
       currentClientID := "000000000000000000";
       ipcConn := Some 0%nat |}
  /\ snd (tick (fun s => s) balatro_catalog "Fedora Linux 43" 1000
               env_rimworld session_stale emptyWorld)
     = [ EvDial "/run/user/1000/discord-ipc-0" (Some 0%nat);
         EvWrite 0%nat (handshakeFrame "000000000000000000") true;
         EvResponse 0%nat HeaderError;
         EvWrite 0%nat
           (activityFrame "RimWorld" 5150 "Fedora Linux 43" 1700000015000000000)
           true ].
Proof.
  apply (tick_recovers (fun s => s) balatro_catalog "Fedora Linux 43" 1000
           env_rimworld session_stale emptyWorld "RimWorld" 5150);
    try reflexivity; try discriminate.
  left. reflexivity.
Defined.

Lemma run_steady_state_witness :
  run (fun s => s) balatro_catalog "Fedora Linux 43" 1000
      [env_balatro; env_balatro_write_fails] session_balatro world_balatro
  = (List.map
       (fun env =>
          [EvWrite 0%nat
             (activityFrame (fst (scan env)) (snd (scan env)) "Fedora Linux 43"
                            (clock env))
             (activity_write_ok env)])
       [env_balatro; env_balatro_write_fails],
     session_balatro, world_balatro).
Proof.
  apply run_steady_state; [reflexivity|].
  repeat constructor; solve [discriminate | vm_compute; reflexivity].
Defined.

Lemma unknown_game_connects_as_sentinel_witness :
  currentClientID
    (fst (fst (tick (fun s => s) balatro_catalog "Fedora Linux 43" 1000
                    env_rimworld session_no_socket emptyWorld)))
  = "000000000000000000".
Proof.
  rewrite (unknown_game_connects_as_sentinel (fun s => s) balatro_catalog
             "Fedora Linux 43" 1000 env_rimworld session_no_socket emptyWorld
             "RimWorld" 5150);
    [ reflexivity | reflexivity | discriminate | vm_compute; reflexivity
    | reflexivity | vm_compute; discriminate | reflexivity | reflexivity ].
Defined.
